(** * nserve: hooks and their dispatch

    A shallow embedding of [hook.go] of package [nserve]: the [Hook] struct,
    its constructor [NewHook], the configuration methods [OnError],
    [SetErrorCombiner], [ContinuePastError], the cloning method [Copy] and the
    three package-level hooks [Shutdown], [Stop], [Start].

    Go pointers, slices with their backing arrays, the [sync.Mutex] behind
    every hook and the package-level [int32] counter are modelled explicitly,
    so that aliasing between a hook and its copy, and the wrap-around of the
    counter, are visible in the statements.

    The dispatch of a hook ([App], [On], [Do]) is not part of [hook.go]; it
    is modelled from the specification, and marked as such. *)

From Stdlib Require Import ZArith Lia.
From stdpp Require Import base option list gmap strings relations.

(** ** Machine integers *)

(** [hookCounter] is an [int32]; [atomic.AddInt32] wraps around silently. *)
Definition int32_min : Z := - 2 ^ 31.
Definition int32_max : Z := 2 ^ 31 - 1.
Definition int32_wrap (z : Z) : Z := ((z + 2 ^ 31) mod 2 ^ 32 - 2 ^ 31)%Z.

(** ** Outcomes of a call

    A call either returns, panics (nil dereference, unlock of a free mutex),
    or blocks for ever on a mutex that is held. *)
Inductive result (A : Type) : Type :=
  | Done (a : A)
  | Panic
  | Blocked.
Arguments Done {A} a.
Arguments Panic {A}.
Arguments Blocked {A}.

#[global] Instance result_ret : MRet result := fun A a => Done a.
#[global] Instance result_bind : MBind result := fun A B k m =>
  match m with
  | Done a => k a
  | Panic => Panic
  | Blocked => Blocked
  end.

(** ** Pointers and slices *)

(** Addresses of heap objects.  Each kind of object (hook, mutex, backing
    array) lives in a store of its own. *)
Definition loc := nat.

(** A Go pointer: [nil] or the address of an object. *)
Definition ptr := option loc.

(** A Go slice header.  No slice of [hook.go] is ever re-sliced, so the
    window always starts at cell 0 of its backing array.  The [nil] slice has
    no array, length 0 and capacity 0. *)
Record slice := Slice { sarr : ptr; slen : nat; scap : nat }.

Definition nil_slice : slice := Slice None 0 0.

Section Arrays.
(** Backing arrays of elements of type [T], whose zero value is [zero]. *)
Context {T : Type} (zero : T).

(** The cells of an array that a slice can see. *)
Definition slice_elems (arrs : gmap loc (list T)) (sl : slice) : list T :=
  match sarr sl with
  | None => []
  | Some a => take (slen sl) (default [] (arrs !! a))
  end.

(** [make([]T, n)]: a new array of [n] zero cells.  (For [n = 0] Go hands
    out an address without cells; a new array without cells is the same
    thing to every observer.) *)
Definition make_slice (arrs : gmap loc (list T)) (n : nat)
  : gmap loc (list T) * slice :=
  let a := fresh (dom arrs) in
  (<[a := replicate n zero]> arrs, Slice (Some a) n n).

(** [copy(dst, src)]: the first [min (len dst) (len src)] cells of [dst]
    are overwritten with those of [src]. *)
Definition copy_slice (arrs : gmap loc (list T)) (dst src : slice)
  : gmap loc (list T) :=
  match sarr dst with
  | None => arrs
  | Some a =>
      let xs := take (slen dst `min` slen src) (slice_elems arrs src) in
      alter (fun old => xs ++ drop (length xs) old) a arrs
  end.

(** [append(sl, x)].  With spare capacity the cell just past the length is
    written in place, in the array the slice already has, and any other
    slice over that array sees the write.  Without, a new and sufficiently
    large array receives the old cells and [x]; how large is up to the
    runtime: [growslice cap needed] is its choice, and at least [needed]
    cells are allocated whatever it says. *)
Definition append_slice (growslice : nat -> nat -> nat)
    (arrs : gmap loc (list T)) (sl : slice) (x : T)
  : gmap loc (list T) * slice :=
  match sarr sl with
  | Some a =>
      if decide (slen sl < scap sl) then
        (alter (fun cells => <[slen sl := x]> cells) a arrs,
         Slice (Some a) (S (slen sl)) (scap sl))
      else
        let c := S (slen sl) `max` growslice (scap sl) (S (slen sl)) in
        let a' := fresh (dom arrs) in
        (<[a' := slice_elems arrs sl ++ x :: replicate (c - S (slen sl)) zero]> arrs,
         Slice (Some a') (S (slen sl)) c)
  | None =>
      let c := S (slen sl) `max` growslice (scap sl) (S (slen sl)) in
      let a' := fresh (dom arrs) in
      (<[a' := slice_elems arrs sl ++ x :: replicate (c - S (slen sl)) zero]> arrs,
       Slice (Some a') (S (slen sl)) c)
  end.

(** A slice is well formed when its array exists and has room for its
    capacity. *)
Definition slice_wf (arrs : gmap loc (list T)) (sl : slice) : Prop :=
  match sarr sl with
  | None => slen sl = 0 /\ scap sl = 0
  | Some a => exists cells, arrs !! a = Some cells
                /\ slen sl <= scap sl /\ scap sl <= length cells
  end.
End Arrays.

(** ** Hooks *)

Definition hookOrder := string.

(** [ForwardOrder]: the items registered for a hook are invoked in the order
    in which they were registered. *)
Definition ForwardOrder : hookOrder := "forward".
(** [ReverseOrder]: the items registered for a hook are invoked opposite to
    the order in which they were registered.  The constant is declared as
    [ReverseOrder = "forward"]. *)
Definition ReverseOrder : hookOrder := "forward".

Definition hookId := Z.

Section Hooks.
(** Non-nil values of Go's [error] interface, and the dynamic values that
    an [interface{}] can hold. *)
Context {errval provider : Type}.

(** Go's [error]: [nil] or an error value. *)
Definition goerror := option errval.
(** Go's [interface{}]: [nil] or a boxed value. *)
Definition iface := option provider.

Record Hook := mkHook {
  Id : hookId;
  lock : ptr;
  Name : string;
  Order : hookOrder;
  InvokeOnError : slice;
  ContinuePast : bool;
  ErrorCombiner : option (goerror -> goerror -> goerror);
  Providers : slice
}.

(** The package state: the counter, and the objects on the heap. *)
Record state := mkState {
  hookCounter : Z;
  hooks : gmap loc Hook;
  mutexes : gmap loc bool;
  hookArrays : gmap loc (list ptr);
  ifaceArrays : gmap loc (list iface)
}.

(** Before package initialisation: [hookCounter] is zero, nothing is
    allocated. *)
Definition empty_state : state := mkState 0 ∅ ∅ ∅ ∅.

Definition set_hooks (f : gmap loc Hook -> gmap loc Hook) (s : state) : state :=
  mkState (hookCounter s) (f (hooks s)) (mutexes s) (hookArrays s) (ifaceArrays s).
Definition set_mutexes (f : gmap loc bool -> gmap loc bool) (s : state) : state :=
  mkState (hookCounter s) (hooks s) (f (mutexes s)) (hookArrays s) (ifaceArrays s).

Definition set_InvokeOnError (sl : slice) (v : Hook) : Hook :=
  mkHook (Id v) (lock v) (Name v) (Order v) sl (ContinuePast v)
    (ErrorCombiner v) (Providers v).
Definition set_ContinuePast (b : bool) (v : Hook) : Hook :=
  mkHook (Id v) (lock v) (Name v) (Order v) (InvokeOnError v) b
    (ErrorCombiner v) (Providers v).
Definition set_ErrorCombiner (f : option (goerror -> goerror -> goerror))
    (v : Hook) : Hook :=
  mkHook (Id v) (lock v) (Name v) (Order v) (InvokeOnError v)
    (ContinuePast v) f (Providers v).
Definition set_Providers (sl : slice) (v : Hook) : Hook :=
  mkHook (Id v) (lock v) (Name v) (Order v) (InvokeOnError v)
    (ContinuePast v) (ErrorCombiner v) sl.

(** [*h] for a pointer [h]: the address and the struct found there. *)
Definition deref (s : state) (h : ptr) : result (loc * Hook) :=
  match h with
  | None => Panic
  | Some p => match hooks s !! p with Some v => Done (p, v) | None => Panic end
  end.

(** [m.Lock()] and [m.Unlock()] for [m : *sync.Mutex]. *)
Definition Lock (s : state) (m : ptr) : result state :=
  match m with
  | None => Panic
  | Some l =>
      match mutexes s !! l with
      | Some false => Done (set_mutexes <[l := true]> s)
      | Some true => Blocked
      | None => Panic
      end
  end.

Definition Unlock (s : state) (m : ptr) : result state :=
  match m with
  | None => Panic
  | Some l =>
      match mutexes s !! l with
      | Some true => Done (set_mutexes <[l := false]> s)
      | _ => Panic
      end
  end.

(** The cascade targets and the callback entries a hook refers to. *)
Definition cascade (s : state) (v : Hook) : list ptr :=
  slice_elems (hookArrays s) (InvokeOnError v).
Definition callbacks (s : state) (v : Hook) : list iface :=
  slice_elems (ifaceArrays s) (Providers v).

(** [atomic.AddInt32(&hookCounter, 1)]: the counter after the addition. *)
Definition next_id (s : state) : hookId := int32_wrap (hookCounter s + 1).

(** [NewHook(name, order)]: the fields that the composite literal leaves
    out have their zero value. *)
Definition NewHook (s : state) (name : string) (order : hookOrder)
  : state * ptr :=
  let id := next_id s in
  let m := fresh (dom (mutexes s)) in
  let p := fresh (dom (hooks s)) in
  let v := mkHook id (Some m) name order nil_slice false None nil_slice in
  (mkState id (<[p := v]> (hooks s)) (<[m := false]> (mutexes s))
     (hookArrays s) (ifaceArrays s),
   Some p).

(** The body of [Copy], between taking and releasing the lock of [v]. *)
Definition Copy_locked (s : state) (v : Hook) : state * ptr :=
  let '(ha, oe) := make_slice None (hookArrays s) (slen (InvokeOnError v)) in
  let ha := copy_slice ha oe (InvokeOnError v) in
  let '(ia, op) := make_slice None (ifaceArrays s) (slen (Providers v)) in
  let ia := copy_slice ia op (Providers v) in
  let id := next_id s in
  let m := fresh (dom (mutexes s)) in
  let hc := mkHook id (Some m) (Name v) (Order v) oe (ContinuePast v)
              (ErrorCombiner v) op in
  let p := fresh (dom (hooks s)) in
  (mkState id (<[p := hc]> (hooks s)) (<[m := false]> (mutexes s)) ha ia,
   Some p).

(** [h.Copy()]. *)
Definition Copy (s : state) (h : ptr) : result (state * ptr) :=
  '(_, v) ← deref s h;
  s1 ← Lock s (lock v);
  let '(s2, hc) := Copy_locked s1 v in
  s3 ← Unlock s2 (lock v);
  mret (s3, hc).

(** [h.SetErrorCombiner(f)]. *)
Definition SetErrorCombiner (s : state) (h : ptr)
    (f : option (goerror -> goerror -> goerror)) : result (state * ptr) :=
  '(p, v) ← deref s h;
  s1 ← Lock s (lock v);
  let s2 := set_hooks <[p := set_ErrorCombiner f v]> s1 in
  s3 ← Unlock s2 (lock v);
  mret (s3, h).

(** [h.ContinuePastError(b)]. *)
Definition ContinuePastError (s : state) (h : ptr) (b : bool)
  : result (state * ptr) :=
  '(p, v) ← deref s h;
  s1 ← Lock s (lock v);
  let s2 := set_hooks <[p := set_ContinuePast b v]> s1 in
  s3 ← Unlock s2 (lock v);
  mret (s3, h).

(** [h.String()]. *)
Definition String (s : state) (h : ptr) : result string :=
  '(_, v) ← deref s h;
  mret ("hook " +:+ Name v).

Section Growth.
(** The runtime's choice of capacity when [append] has to reallocate. *)
Variable growslice : nat -> nat -> nat.

(** The body of [OnError], between taking and releasing the lock. *)
Definition OnError_locked (s : state) (p : loc) (v : Hook) (e : ptr) : state :=
  match e with
  | None => set_hooks <[p := set_InvokeOnError nil_slice v]> s
  | Some _ =>
      let '(ha, sl) := append_slice None growslice (hookArrays s)
                         (InvokeOnError v) e in
      mkState (hookCounter s) (<[p := set_InvokeOnError sl v]> (hooks s))
        (mutexes s) ha (ifaceArrays s)
  end.

(** [h.OnError(e)]. *)
Definition OnError (s : state) (h : ptr) (e : ptr) : result (state * ptr) :=
  '(p, v) ← deref s h;
  s1 ← Lock s (lock v);
  let s2 := OnError_locked s1 p v e in
  s3 ← Unlock s2 (lock v);
  mret (s3, h).

(** Modelled from the spec: appending a callback entry to a hook's
    callback list.  [hook.go] has no method that does it; the field
    [Providers] is exported and an entry is appended with the statement
    [h.Providers = append(h.Providers, x)]. *)
Definition appendProvider (s : state) (h : ptr) (x : iface)
  : result state :=
  '(p, v) ← deref s h;
  let '(ia, sl) := append_slice None growslice (ifaceArrays s)
                     (Providers v) x in
  mret (mkState (hookCounter s) (<[p := set_Providers sl v]> (hooks s))
          (mutexes s) (hookArrays s) ia).

(** Package initialisation.  Go initialises package-level variables in
    declaration order once what they depend on is initialised:
    [Shutdown], then [Stop] (which mentions [Shutdown]), then [Start]
    (which mentions [Stop]). *)
Record globals := Globals { Shutdown : ptr; Stop : ptr; Start : ptr }.

Definition package_init : result (state * globals) :=
  let '(s, shutdown) := NewHook empty_state "shutdown" ReverseOrder in
  let '(s, stop) := NewHook s "stop" ReverseOrder in
  '(s, stop) ← OnError s stop shutdown;
  '(s, stop) ← ContinuePastError s stop true;
  let '(s, start) := NewHook s "start" ForwardOrder in
  '(s, start) ← OnError s start stop;
  mret (s, Globals shutdown stop start).
End Growth.
End Hooks.

Arguments Hook : clear implicits.
Arguments state : clear implicits.
Arguments goerror : clear implicits.
Arguments iface : clear implicits.
Arguments globals : clear implicits.


(** ** Calls into the package, and the states they lead to *)

Section Reachability.
Context {errval provider : Type}.
Variable growslice : nat -> nat -> nat.
Implicit Types (s : state errval provider) (v : Hook errval).

(** A hook that a method can be called on: it is on the heap and its mutex
    exists and is free. *)
Definition hook_ready s (p : loc) v : Prop :=
  hooks s !! p = Some v
  /\ exists l, lock v = Some l /\ mutexes s !! l = Some false.

(** Both slices of a hook are well formed. *)
Definition hook_wf s v : Prop :=
  slice_wf (hookArrays s) (InvokeOnError v)
  /\ slice_wf (ifaceArrays s) (Providers v).

(** One call by a client of the package.  A pointer handed to [OnError]
    points to a hook: Go has no dangling pointers. *)
Inductive step s : state errval provider -> Prop :=
  | step_NewHook name order :
      step s (NewHook s name order).1
  | step_Copy h s' hc :
      Copy s h = Done (s', hc) -> step s s'
  | step_OnError h e s' r :
      (forall q, e = Some q -> is_Some (hooks s !! q)) ->
      OnError growslice s h e = Done (s', r) -> step s s'
  | step_SetErrorCombiner h f s' r :
      SetErrorCombiner s h f = Done (s', r) -> step s s'
  | step_ContinuePastError h b s' r :
      ContinuePastError s h b = Done (s', r) -> step s s'
  | step_appendProvider h x s' :
      appendProvider growslice s h x = Done s' -> step s s'.

(** The states of a program: package initialisation, then any number of
    calls. *)
Definition reachable s : Prop :=
  exists s0 g, package_init growslice = Done (s0, g) /\ rtc step s0 s.

(** The state in which [main] starts. *)
Definition init_state : state errval provider :=
  match package_init growslice with
  | Done (s, _) => s
  | _ => empty_state
  end.

(** The hooks of [s], listed in the order of their creation: the hook at
    position [i] drew the [(i+1)]-th value of the counter. *)
Definition creation_log s (log : list loc) : Prop :=
  NoDup log
  /\ length log = size (hooks s)
  /\ (forall p, p ∈ log <-> is_Some (hooks s !! p))
  /\ (forall i p, log !! i = Some p ->
        exists v, hooks s !! p = Some v
                  /\ Id v = int32_wrap (Z.of_nat (S i)))
  /\ hookCounter s = int32_wrap (Z.of_nat (length log)).

(** No two hooks have a slice over the same backing array. *)
Definition no_sharing s : Prop :=
  forall p q vp vq,
    p <> q -> hooks s !! p = Some vp -> hooks s !! q = Some vq ->
    (forall a, sarr (InvokeOnError vp) = Some a ->
               sarr (InvokeOnError vq) <> Some a)
    /\ (forall a, sarr (Providers vp) = Some a ->
                  sarr (Providers vq) <> Some a).

(** What every state of a program satisfies. *)
Definition state_inv s : Prop :=
  (forall p v, hooks s !! p = Some v -> hook_ready s p v /\ hook_wf s v)
  /\ no_sharing s
  /\ exists log, creation_log s log.

(** [n] calls of [NewHook("h", ForwardOrder)] in a row. *)
Definition NewHooks (n : nat) s : state errval provider :=
  Nat.iter n (fun s => (NewHook s "h" ForwardOrder).1) s.
End Reachability.

(** A runtime that doubles the capacity when [append] reallocates. *)
Definition growslice_double (cap needed : nat) : nat := 2 * cap.

(** ** The dispatch engine *)

Section Dispatch.
Context {errval provider : Type}.

(** Modelled from the spec: the App and its per-hook registry of callback
    descriptors ([CreateApp], [On] and [Do] are not in [hook.go]).  The
    registry maps a hook, by its address, to the descriptors registered
    for it, in registration order. *)
Record App := mkApp {
  appName : string;
  registry : gmap loc (list provider)
}.

(** Modelled from the spec: [On(hook, callback)] is missing from the
    source; it appends the callback to the registry entry of the hook and
    creates the entry if absent. *)
Definition On (a : App) (h : loc) (cb : provider) : App :=
  mkApp (appName a) (<[h := default [] (registry a !! h) ++ [cb]]> (registry a)).

(** Modelled from the spec: the order of iteration, step 2 of [Do], which
    is missing from the source: back to front if the order is Reverse,
    front to back if Forward. *)
Definition iteration_order (o : hookOrder) (cbs : list provider)
  : list provider :=
  if decide (o = ReverseOrder) then reverse cbs else cbs.

(** Modelled from the spec: error accumulation, step 4 of [Do], which is
    missing from the source.  [failed] tells whether an error has occurred
    before; the first error is kept as it is, a later one goes through the
    combiner if there is one and is dropped otherwise. *)
Definition accumulate (comb : option (goerror errval -> goerror errval -> goerror errval))
    (failed : bool) (acc : goerror errval) (e : errval) : goerror errval :=
  if failed then
    match comb with
    | Some f => f acc (Some e)
    | None => acc
    end
  else Some e.

Section Engine.
(** The external callback resolver: resolving a descriptor against the
    App and invoking the result changes the App (a callback may register
    others) and gives an optional error; a resolution error counts as a
    callback error. *)
Variable invoke : provider -> App -> App * goerror errval.

(** Modelled from the spec: the callback loop, steps 3 and 4 of [Do],
    which is missing from the source.  The callbacks [cbs] are the
    snapshot taken when the dispatch began.  The result is the App, the
    callbacks that were invoked, in order, whether one has failed and
    the accumulated error. *)
Fixpoint runCallbacks (continuePast : bool)
    (comb : option (goerror errval -> goerror errval -> goerror errval))
    (cbs : list provider) (a : App) (failed : bool) (acc : goerror errval)
  : App * list provider * bool * goerror errval :=
  match cbs with
  | [] => (a, [], failed, acc)
  | cb :: rest =>
      let '(a1, r) := invoke cb a in
      match r with
      | None =>
          let '(a2, tr, f, e) :=
            runCallbacks continuePast comb rest a1 failed acc in
          (a2, cb :: tr, f, e)
      | Some err =>
          let acc1 := accumulate comb failed acc err in
          if continuePast then
            let '(a2, tr, f, e) :=
              runCallbacks continuePast comb rest a1 true acc1 in
            (a2, cb :: tr, f, e)
          else (a1, [cb], true, acc1)
      end
  end.

(** The callbacks [cbs] run one after the other and none fails: the App
    they leave. *)
Fixpoint run_clean (cbs : list provider) (a : App) : option App :=
  match cbs with
  | [] => Some a
  | cb :: rest =>
      match invoke cb a with
      | (a1, None) => run_clean rest a1
      | (_, Some _) => None
      end
  end.

(** The hooks among the cascade entries of [v]. *)
Definition cascade_targets (s : state errval provider) (v : Hook errval)
  : list (loc * Hook errval) :=
  omap (fun e : ptr => p ← e; w ← hooks s !! p; Some (p, w)) (cascade s v).

(** Modelled from the spec: the cascade, step 5 of [Do], which is
    missing from the source.  [dispatch] is invoked for each hook of the
    cascade list, in list order, with the App as the previous dispatch
    left it; an error that it returns is combined into the result like a
    later error of the hook itself (by the combiner of the hook that
    cascades, if it has one, and dropped otherwise). *)
Definition run_cascade
    (dispatch : App -> loc -> Hook errval ->
                option (App * list (loc * provider) * goerror errval))
    (comb : option (goerror errval -> goerror errval -> goerror errval))
    (start : App * list (loc * provider) * goerror errval)
    (targets : list (loc * Hook errval))
  : option (App * list (loc * provider) * goerror errval) :=
  foldl
    (fun st '(q, w) =>
       '(a2, tr2, acc2) ← st;
       '(a3, tr3, err) ← dispatch a2 q w;
       Some (a3, tr2 ++ tr3,
             match err with
             | Some e => accumulate comb true acc2 e
             | None => acc2
             end))
    (Some start) targets.


(** Modelled from the spec: [Do(app, hook)], steps 1 to 6, which is
    missing from the source.  The callbacks of the hook are run; if the
    accumulated error is not nil, the cascade follows.  A cascade may go
    round in a cycle, hence the fuel: [None] means that it ran out.  The
    trace lists the callbacks invoked, each with the hook it ran for. *)
Fixpoint Do (fuel : nat) (s : state errval provider) (a : App)
    (h : loc) (v : Hook errval)
  : option (App * list (loc * provider) * goerror errval) :=
  match fuel with
  | 0 => None
  | S fuel =>
      let cbs := iteration_order (Order v) (default [] (registry a !! h)) in
      let '(a1, tr, _, acc) :=
        runCallbacks (ContinuePast v) (ErrorCombiner v) cbs a false None in
      match acc with
      | None => Some (a1, (h,.) <$> tr, None)
      | Some _ =>
          run_cascade (Do fuel s) (ErrorCombiner v)
            (a1, (h,.) <$> tr, acc) (cascade_targets s v)
      end
  end.
End Engine.
End Dispatch.

Arguments App : clear implicits.


(** ** A program used as an example

    After initialisation the program makes a hook ["fallback"] and a hook
    ["work"] that cascades to it and joins errors, and registers one
    callback for each. *)

Definition join_errors (first second : goerror string) : goerror string :=
  match first, second with
  | Some x, Some y => Some (x +:+ "; " +:+ y)
  | Some x, None => Some x
  | None, y => y
  end.







(** Callbacks that never fail. *)
Definition all_succeed (cb : nat) (a : App nat) : App nat * goerror string :=
  (a, None).





(** ** Chains of calls, and hooks that a client makes itself *)

Section Chains.
Context {errval provider : Type}.
Variable growslice : nat -> nat -> nat.
Implicit Types (s : state errval provider) (v : Hook errval).

(** [h.OnError(e1).OnError(e2)...]: each call is made on the hook that
    the call before returned. *)
Fixpoint OnErrors s (h : ptr) (es : list ptr) : result (state errval provider * ptr) :=
  match es with
  | [] => Done (s, h)
  | e :: es => '(s1, h1) ← OnError growslice s h e; OnErrors s1 h1 es
  end.

(** The list that a chain of [OnError] calls is expected to leave: a nil
    argument empties it, any other is put at the end. *)
Definition targets_after (old : list ptr) (es : list ptr) : list ptr :=
  foldl (fun acc e => match e with None => [] | Some _ => acc ++ [e] end)
    old es.

(** No two hooks share a mutex. *)
Definition locks_distinct s : Prop :=
  forall p q vp vq l,
    hooks s !! p = Some vp -> hooks s !! q = Some vq ->
    lock vp = Some l -> lock vq = Some l -> p = q.

(** Every entry of every cascade list points to a hook. *)
Definition targets_valid s : Prop :=
  forall p v e,
    hooks s !! p = Some v -> e ∈ cascade s v ->
    exists q, e = Some q /\ is_Some (hooks s !! q).

(** The mutex of a hook is held, as it is while another goroutine is
    inside one of its methods. *)
Definition mutex_held s (p : loc) v : Prop :=
  hooks s !! p = Some v
  /\ exists l, lock v = Some l /\ mutexes s !! l = Some true.

(** [Hook{}], the zero value of the struct, which a client can write
    because the type is exported; its [lock] is nil. *)
Definition zero_Hook : Hook errval :=
  mkHook 0%Z None "" "" nil_slice false None nil_slice.

(** The state after a client has allocated [&Hook{}]. *)
Definition with_zero_Hook s : state errval provider :=
  set_hooks <[fresh (dom (hooks s)) := zero_Hook]> s.
End Chains.

(** * Facts about the model *)

(** ** The counter *)

Lemma int32_wrap_small (z : Z) :
  (int32_min <= z <= int32_max)%Z -> int32_wrap z = z.
Proof.
  unfold int32_wrap, int32_min, int32_max. intros Hz.
  rewrite Z.mod_small; lia.
Qed.

Lemma int32_wrap_range (z : Z) :
  (int32_min <= int32_wrap z <= int32_max)%Z.
Proof.
  unfold int32_wrap, int32_min, int32_max.
  pose proof (Z.mod_pos_bound (z + 2 ^ 31) (2 ^ 32)). lia.
Qed.

Lemma int32_wrap_succ (z : Z) :
  int32_wrap (int32_wrap z + 1) = int32_wrap (z + 1).
Proof.
  unfold int32_wrap. f_equal.
  replace ((z + 2 ^ 31) mod 2 ^ 32 - 2 ^ 31 + 1 + 2 ^ 31)%Z
    with ((z + 2 ^ 31) mod 2 ^ 32 + 1)%Z by lia.
  rewrite Zplus_mod_idemp_l. f_equal. lia.
Qed.

(** Two integers less than [2^32] apart never wrap to the same [int32]. *)
Lemma int32_wrap_inj (a b : Z) :
  (Z.abs (a - b) < 2 ^ 32)%Z -> int32_wrap a = int32_wrap b -> a = b.
Proof.
  unfold int32_wrap. intros Hab Heq.
  assert (Hm : ((a + 2 ^ 31) mod 2 ^ 32 = (b + 2 ^ 31) mod 2 ^ 32)%Z) by lia.
  pose proof (Z.div_mod (a + 2 ^ 31) (2 ^ 32)) as Ha.
  pose proof (Z.div_mod (b + 2 ^ 31) (2 ^ 32)) as Hb.
  assert (Hq : ((a + 2 ^ 31) / 2 ^ 32 = (b + 2 ^ 31) / 2 ^ 32)%Z) by nia.
  lia.
Qed.

(** A full turn of the counter is invisible. *)
Lemma int32_wrap_period (z : Z) : int32_wrap (z + 2 ^ 32) = int32_wrap z.
Proof.
  unfold int32_wrap. f_equal.
  replace (z + 2 ^ 32 + 2 ^ 31)%Z with (z + 2 ^ 31 + 1 * 2 ^ 32)%Z by lia.
  apply Z_mod_plus_full.
Qed.

(** ** Slices *)

Section ArrayFacts.
Context {T : Type} (zero : T).
Implicit Types (arrs : gmap loc (list T)) (sl : slice).

Lemma slice_elems_length arrs sl :
  slice_wf arrs sl -> length (slice_elems arrs sl) = slen sl.
Proof.
  unfold slice_wf, slice_elems. destruct (sarr sl) as [a|].
  - intros (cells & -> & Hlen & Hcap). simpl. rewrite length_take. lia.
  - intros [-> _]. reflexivity.
Qed.

Lemma slice_elems_nil arrs : slice_elems arrs nil_slice = [].
Proof. reflexivity. Qed.

Lemma slice_wf_nil arrs : slice_wf arrs nil_slice.
Proof. split; reflexivity. Qed.

(** The array of a well-formed slice is allocated. *)
Lemma slice_wf_dom arrs sl a :
  slice_wf arrs sl -> sarr sl = Some a -> a ∈ dom arrs.
Proof.
  unfold slice_wf. intros Hwf Ha. rewrite Ha in Hwf.
  destruct Hwf as (cells & Hc & _). apply elem_of_dom. eauto.
Qed.

(** Writing to another array is not seen. *)
Lemma slice_elems_insert_ne arrs sl a cells :
  sarr sl <> Some a ->
  slice_elems (<[a := cells]> arrs) sl = slice_elems arrs sl.
Proof.
  unfold slice_elems. destruct (sarr sl) as [b|]; [|reflexivity].
  intros Hne. rewrite lookup_insert_ne; [reflexivity | congruence].
Qed.

Lemma slice_elems_alter_ne arrs sl a f :
  sarr sl <> Some a ->
  slice_elems (alter f a arrs) sl = slice_elems arrs sl.
Proof.
  unfold slice_elems. destruct (sarr sl) as [b|]; [|reflexivity].
  intros Hne. rewrite lookup_alter_ne; [reflexivity | congruence].
Qed.

Lemma slice_wf_insert_fresh arrs sl a cells :
  a ∉ dom arrs -> slice_wf arrs sl -> slice_wf (<[a := cells]> arrs) sl.
Proof.
  unfold slice_wf. intros Hfresh. destruct (sarr sl) as [b|]; [|tauto].
  intros (c & Hc & Hb). exists c. split; [|exact Hb].
  rewrite lookup_insert_ne; [exact Hc|].
  intros ->. apply Hfresh, elem_of_dom. eauto.
Qed.

Lemma slice_wf_alter_insert arrs sl a i x :
  slice_wf arrs sl ->
  slice_wf (alter (fun cells => <[i := x]> cells) a arrs) sl.
Proof.
  unfold slice_wf. destruct (sarr sl) as [b|]; [|tauto].
  intros (c & Hc & Hb). destruct (decide (a = b)) as [->|Hne].
  - exists (<[i := x]> c). rewrite lookup_alter_eq, Hc. simpl.
    rewrite length_insert. tauto.
  - exists c. rewrite lookup_alter_ne by exact Hne. tauto.
Qed.

Section Append.
Variable growslice : nat -> nat -> nat.

(** [append] puts the new element after the old ones, which stay. *)
Lemma append_slice_elems arrs sl x :
  slice_wf arrs sl ->
  slice_elems (append_slice zero growslice arrs sl x).1
              (append_slice zero growslice arrs sl x).2
  = slice_elems arrs sl ++ [x].
Proof.
  intros Hwf. pose proof (slice_elems_length _ _ Hwf) as Hlen.
  unfold append_slice. destruct (sarr sl) as [a|] eqn:Ha.
  - destruct (decide (slen sl < scap sl)) as [Hroom|Hfull]; simpl.
    + unfold slice_wf in Hwf. rewrite Ha in Hwf.
      destruct Hwf as (cells & Hc & Hle & Hcap).
      unfold slice_elems. rewrite Ha. simpl.
      rewrite lookup_alter_eq, Hc. simpl.
      rewrite (take_S_r _ _ x) by (apply list_lookup_insert_eq; lia).
      rewrite take_insert_ge by lia. reflexivity.
    + unfold slice_elems at 1. simpl. rewrite lookup_insert_eq. simpl.
      rewrite <- Hlen at 1.
      rewrite (cons_middle x), app_assoc.
      replace (S (length (slice_elems arrs sl)))
        with (length (slice_elems arrs sl ++ [x]))
        by (rewrite length_app; simpl; lia).
      apply take_app_length.
  - unfold slice_elems at 1. simpl. rewrite lookup_insert_eq. simpl.
    rewrite <- Hlen at 1.
    rewrite (cons_middle x), app_assoc.
    replace (S (length (slice_elems arrs sl)))
      with (length (slice_elems arrs sl ++ [x]))
      by (rewrite length_app; simpl; lia).
    apply take_app_length.
Qed.

(** The array that [append] returns is the old one or a new one. *)
Lemma append_slice_arr arrs sl x a :
  sarr (append_slice zero growslice arrs sl x).2 = Some a ->
  sarr sl = Some a \/ a ∉ dom arrs.
Proof.
  unfold append_slice. destruct (sarr sl) as [b|].
  - destruct (decide (slen sl < scap sl)); simpl.
    + intros [= ->]. left. reflexivity.
    + intros [= <-]. right. apply is_fresh.
  - simpl. intros [= <-]. right. apply is_fresh.
Qed.

(** A slice over another array does not see an [append]. *)
Lemma append_slice_frame arrs sl x sl' :
  slice_wf arrs sl' ->
  (forall a, sarr sl = Some a -> sarr sl' <> Some a) ->
  slice_elems (append_slice zero growslice arrs sl x).1 sl'
  = slice_elems arrs sl'.
Proof.
  intros Hwf Hne.
  assert (Hfresh : sarr sl' <> Some (fresh (dom arrs))).
  { intros Heq. apply (is_fresh (dom arrs)).
    apply (slice_wf_dom arrs sl'); assumption. }
  unfold append_slice. destruct (sarr sl) as [b|].
  - destruct (decide (slen sl < scap sl)); simpl.
    + apply slice_elems_alter_ne. auto.
    + apply slice_elems_insert_ne. exact Hfresh.
  - simpl. apply slice_elems_insert_ne. exact Hfresh.
Qed.

(** Well-formed slices stay so across an [append] to any slice. *)
Lemma append_slice_wf_other arrs sl x sl' :
  slice_wf arrs sl' ->
  slice_wf (append_slice zero growslice arrs sl x).1 sl'.
Proof.
  intros Hwf. unfold append_slice. destruct (sarr sl) as [b|].
  - destruct (decide (slen sl < scap sl)); simpl.
    + apply slice_wf_alter_insert. exact Hwf.
    + apply slice_wf_insert_fresh; [apply is_fresh | exact Hwf].
  - simpl. apply slice_wf_insert_fresh; [apply is_fresh | exact Hwf].
Qed.

Lemma append_slice_wf arrs sl x :
  slice_wf arrs sl ->
  slice_wf (append_slice zero growslice arrs sl x).1
           (append_slice zero growslice arrs sl x).2.
Proof.
  intros Hwf. unfold append_slice. destruct (sarr sl) as [a|] eqn:Ha.
  - destruct (decide (slen sl < scap sl)) as [Hroom|Hfull]; simpl.
    + unfold slice_wf in *. rewrite Ha in Hwf. simpl.
      destruct Hwf as (cells & Hc & Hle & Hcap).
      exists (<[slen sl := x]> cells).
      rewrite lookup_alter_eq, Hc, length_insert. simpl.
      repeat split; [lia | exact Hcap].
    + unfold slice_wf. simpl. eexists. rewrite lookup_insert_eq.
      split; [reflexivity|].
      rewrite length_app. simpl. rewrite length_replicate.
      rewrite (slice_elems_length _ _ Hwf). lia.
  - unfold slice_wf. simpl. eexists. rewrite lookup_insert_eq.
    split; [reflexivity|].
    rewrite length_app. simpl. rewrite length_replicate.
    rewrite (slice_elems_length _ _ Hwf). lia.
Qed.
End Append.

(** [make] followed by [copy], as [Copy] does it: a new array holding the
    elements of the source. *)
Lemma clone_slice arrs sl :
  slice_wf arrs sl ->
  copy_slice (make_slice zero arrs (slen sl)).1
             (make_slice zero arrs (slen sl)).2 sl
  = <[fresh (dom arrs) := slice_elems arrs sl]> arrs.
Proof.
  intros Hwf. unfold make_slice, copy_slice. simpl.
  assert (Hne : sarr sl <> Some (fresh (dom arrs))).
  { intros Heq. apply (is_fresh (dom arrs)).
    apply (slice_wf_dom arrs sl); assumption. }
  pose proof (slice_elems_length _ _ Hwf) as Hlen.
  rewrite slice_elems_insert_ne by exact Hne.
  rewrite Nat.min_id.
  rewrite (take_ge (slice_elems arrs sl)) by lia.
  rewrite alter_insert_eq. f_equal.
  rewrite drop_ge by (rewrite length_replicate; lia).
  apply app_nil_r.
Qed.
End ArrayFacts.


(** ** Methods called on a ready hook *)

Section HookFacts.
Context {errval provider : Type}.
Variable growslice : nat -> nat -> nat.
Implicit Types (s : state errval provider) (v : Hook errval).

Lemma lock_unlock_cancel (ms : gmap loc bool) l :
  ms !! l = Some false -> <[l := false]> (<[l := true]> ms) = ms.
Proof. intros Hl. rewrite insert_insert_eq. apply insert_id. exact Hl. Qed.

Lemma dom_lock (ms : gmap loc bool) l b :
  is_Some (ms !! l) -> dom (<[l := b]> ms) = dom ms.
Proof.
  apply dom_insert_lookup_L.
Qed.

(** [Copy] on a ready hook returns, and the mutex is free again. *)
Lemma Copy_ready s p v :
  hook_ready s p v -> Copy s (Some p) = Done (Copy_locked s v).
Proof.
  intros (Hp & l & Hl & Hfree).
  unfold Copy, deref. rewrite Hp. simpl.
  unfold Lock, Unlock. rewrite Hl, Hfree. simpl.
  destruct s as [c hs ms ha ia]. simpl in *.
  unfold Copy_locked, make_slice, set_mutexes. simpl.
  rewrite (dom_lock ms l true) by eauto.
  assert (Hne : fresh (dom ms) <> l).
  { intros Heq. apply (is_fresh (dom ms)). rewrite Heq.
    apply elem_of_dom. eauto. }
  rewrite lookup_insert_ne by exact Hne.
  rewrite lookup_insert_eq. simpl. unfold mret, result_ret.
  do 2 f_equal. unfold next_id. simpl. f_equal.
  rewrite (insert_insert_ne _ l (fresh (dom ms))) by congruence.
  f_equal. apply lock_unlock_cancel. exact Hfree.
Qed.

Lemma OnError_locked_mutexes s p v e f :
  OnError_locked growslice (set_mutexes f s) p v e
  = set_mutexes f (OnError_locked growslice s p v e).
Proof.
  unfold OnError_locked. destruct e as [q|]; [|reflexivity].
  simpl. destruct (append_slice _ _ _ _ _). reflexivity.
Qed.

Lemma OnError_locked_mutexes_eq s p v e :
  mutexes (OnError_locked growslice s p v e) = mutexes s.
Proof.
  unfold OnError_locked. destruct e as [q|]; [|reflexivity].
  destruct (append_slice _ _ _ _ _). reflexivity.
Qed.

Lemma set_mutexes_cancel s l :
  mutexes s !! l = Some false ->
  set_mutexes <[l := false]> (set_mutexes <[l := true]> s) = s.
Proof.
  intros Hl. destruct s as [c hs ms ha ia]. unfold set_mutexes. simpl in *.
  f_equal. apply lock_unlock_cancel. exact Hl.
Qed.

(** [OnError] on a ready hook returns the hook it was called on. *)
Lemma OnError_ready s p v e :
  hook_ready s p v ->
  OnError growslice s (Some p) e
  = Done (OnError_locked growslice s p v e, Some p).
Proof.
  intros (Hp & l & Hl & Hfree).
  unfold OnError, deref. rewrite Hp. simpl.
  unfold Lock. rewrite Hl, Hfree. simpl.
  rewrite OnError_locked_mutexes. unfold Unlock. simpl.
  rewrite OnError_locked_mutexes_eq, lookup_insert_eq. simpl.
  unfold mret, result_ret. do 2 f_equal.
  assert (Hm : mutexes (OnError_locked growslice s p v e) !! l = Some false)
    by (rewrite OnError_locked_mutexes_eq; exact Hfree).
  revert Hm. generalize (OnError_locked growslice s p v e). intros s' Hm.
  apply set_mutexes_cancel. exact Hm.
Qed.

Lemma SetErrorCombiner_ready s p v f :
  hook_ready s p v ->
  SetErrorCombiner s (Some p) f
  = Done (set_hooks <[p := set_ErrorCombiner f v]> s, Some p).
Proof.
  intros (Hp & l & Hl & Hfree).
  unfold SetErrorCombiner, deref. rewrite Hp. simpl.
  unfold Lock, Unlock. rewrite Hl, Hfree. simpl.
  rewrite lookup_insert_eq. simpl. unfold mret, result_ret. do 2 f_equal.
  destruct s as [c hs ms ha ia]. unfold set_mutexes, set_hooks. simpl in *.
  f_equal. apply lock_unlock_cancel. exact Hfree.
Qed.

Lemma ContinuePastError_ready s p v b :
  hook_ready s p v ->
  ContinuePastError s (Some p) b
  = Done (set_hooks <[p := set_ContinuePast b v]> s, Some p).
Proof.
  intros (Hp & l & Hl & Hfree).
  unfold ContinuePastError, deref. rewrite Hp. simpl.
  unfold Lock, Unlock. rewrite Hl, Hfree. simpl.
  rewrite lookup_insert_eq. simpl. unfold mret, result_ret. do 2 f_equal.
  destruct s as [c hs ms ha ia]. unfold set_mutexes, set_hooks. simpl in *.
  f_equal. apply lock_unlock_cancel. exact Hfree.
Qed.

(** A method that returns was called on a hook of the heap, and if it
    takes the lock, the mutex was there and free. *)
Lemma deref_Done s h p v :
  deref s h = Done (p, v) -> h = Some p /\ hooks s !! p = Some v.
Proof.
  unfold deref. destruct h as [q|]; [|discriminate].
  destruct (hooks s !! q) eqn:Hq; [|discriminate].
  intros [= -> ->]. auto.
Qed.

Lemma Lock_Done s m s1 :
  Lock s m = Done s1 ->
  exists l, m = Some l /\ mutexes s !! l = Some false.
Proof.
  unfold Lock. destruct m as [l|]; [|discriminate].
  destruct (mutexes s !! l) as [[]|] eqn:Hl; try discriminate.
  intros _. eauto.
Qed.

Lemma Copy_Done s h s' hc :
  Copy s h = Done (s', hc) ->
  exists p v, h = Some p /\ hook_ready s p v /\ Copy_locked s v = (s', hc).
Proof.
  intros HC.
  assert (exists p v, h = Some p /\ hook_ready s p v) as (p & v & -> & Hr).
  { unfold Copy in HC.
    destruct (deref s h) as [[p v]| |] eqn:Hd; try discriminate.
    apply deref_Done in Hd as [-> Hp]. simpl in HC.
    destruct (Lock s (lock v)) as [s1| |] eqn:HL; try discriminate.
    apply Lock_Done in HL as (l & Hl & Hfree).
    exists p, v. split; [reflexivity|]. split; eauto. }
  exists p, v. rewrite (Copy_ready _ _ _ Hr) in HC.
  split; [reflexivity|]. split; [assumption | congruence].
Qed.

Lemma OnError_Done s h e s' r :
  OnError growslice s h e = Done (s', r) ->
  exists p v, h = Some p /\ hook_ready s p v
              /\ s' = OnError_locked growslice s p v e /\ r = Some p.
Proof.
  intros HC.
  assert (exists p v, h = Some p /\ hook_ready s p v) as (p & v & -> & Hr).
  { unfold OnError in HC.
    destruct (deref s h) as [[p v]| |] eqn:Hd; try discriminate.
    apply deref_Done in Hd as [-> Hp]. simpl in HC.
    destruct (Lock s (lock v)) as [s1| |] eqn:HL; try discriminate.
    apply Lock_Done in HL as (l & Hl & Hfree).
    exists p, v. split; [reflexivity|]. split; eauto. }
  exists p, v. rewrite (OnError_ready _ _ _ _ Hr) in HC.
  split; [reflexivity|]. split; [assumption|]. split; congruence.
Qed.

Lemma SetErrorCombiner_Done s h f s' r :
  SetErrorCombiner s h f = Done (s', r) ->
  exists p v, h = Some p /\ hook_ready s p v
              /\ s' = set_hooks <[p := set_ErrorCombiner f v]> s
              /\ r = Some p.
Proof.
  intros HC.
  assert (exists p v, h = Some p /\ hook_ready s p v) as (p & v & -> & Hr).
  { unfold SetErrorCombiner in HC.
    destruct (deref s h) as [[p v]| |] eqn:Hd; try discriminate.
    apply deref_Done in Hd as [-> Hp]. simpl in HC.
    destruct (Lock s (lock v)) as [s1| |] eqn:HL; try discriminate.
    apply Lock_Done in HL as (l & Hl & Hfree).
    exists p, v. split; [reflexivity|]. split; eauto. }
  exists p, v. rewrite (SetErrorCombiner_ready _ _ _ _ Hr) in HC.
  split; [reflexivity|]. split; [assumption|]. split; congruence.
Qed.

Lemma ContinuePastError_Done s h b s' r :
  ContinuePastError s h b = Done (s', r) ->
  exists p v, h = Some p /\ hook_ready s p v
              /\ s' = set_hooks <[p := set_ContinuePast b v]> s
              /\ r = Some p.
Proof.
  intros HC.
  assert (exists p v, h = Some p /\ hook_ready s p v) as (p & v & -> & Hr).
  { unfold ContinuePastError in HC.
    destruct (deref s h) as [[p v]| |] eqn:Hd; try discriminate.
    apply deref_Done in Hd as [-> Hp]. simpl in HC.
    destruct (Lock s (lock v)) as [s1| |] eqn:HL; try discriminate.
    apply Lock_Done in HL as (l & Hl & Hfree).
    exists p, v. split; [reflexivity|]. split; eauto. }
  exists p, v. rewrite (ContinuePastError_ready _ _ _ _ Hr) in HC.
  split; [reflexivity|]. split; [assumption|]. split; congruence.
Qed.

(** [appendProvider] takes no lock: it returns for every hook of the
    heap. *)
Lemma appendProvider_Some s p v x :
  hooks s !! p = Some v ->
  appendProvider growslice s (Some p) x
  = Done (mkState (hookCounter s)
            (<[p := set_Providers
                      (append_slice None growslice (ifaceArrays s)
                         (Providers v) x).2 v]> (hooks s))
            (mutexes s) (hookArrays s)
            (append_slice None growslice (ifaceArrays s) (Providers v) x).1).
Proof.
  intros Hp. unfold appendProvider, deref. rewrite Hp. simpl.
  destruct (append_slice _ _ _ _ _). reflexivity.
Qed.

Lemma appendProvider_Done s h x s' :
  appendProvider growslice s h x = Done s' ->
  exists p v, h = Some p /\ hooks s !! p = Some v
    /\ s' = mkState (hookCounter s)
              (<[p := set_Providers
                        (append_slice None growslice (ifaceArrays s)
                           (Providers v) x).2 v]> (hooks s))
              (mutexes s) (hookArrays s)
              (append_slice None growslice (ifaceArrays s) (Providers v) x).1.
Proof.
  intros HC.
  assert (exists p v, h = Some p /\ hooks s !! p = Some v)
    as (p & v & -> & Hp).
  { unfold appendProvider in HC.
    destruct (deref s h) as [[p v]| |] eqn:Hd; try discriminate.
    apply deref_Done in Hd as [-> Hp]. eauto. }
  exists p, v. rewrite (appendProvider_Some _ _ _ _ Hp) in HC.
  split; [reflexivity|]. split; [assumption|]. congruence.
Qed.

(** The state after [OnError], field by field. *)
Lemma OnError_locked_nil s p v :
  OnError_locked growslice s p v None
  = set_hooks <[p := set_InvokeOnError nil_slice v]> s.
Proof. reflexivity. Qed.

Lemma OnError_locked_Some s p v q :
  OnError_locked growslice s p v (Some q)
  = mkState (hookCounter s)
      (<[p := set_InvokeOnError
                (append_slice None growslice (hookArrays s)
                   (InvokeOnError v) (Some q)).2 v]> (hooks s))
      (mutexes s)
      (append_slice None growslice (hookArrays s) (InvokeOnError v) (Some q)).1
      (ifaceArrays s).
Proof.
  unfold OnError_locked. destruct (append_slice _ _ _ _ _). reflexivity.
Qed.

(** The state after [Copy], field by field. *)
Lemma Copy_locked_eq s v :
  hook_wf s v ->
  Copy_locked s v
  = (mkState (next_id s)
       (<[fresh (dom (hooks s)) :=
            mkHook (next_id s) (Some (fresh (dom (mutexes s)))) (Name v)
              (Order v)
              (Slice (Some (fresh (dom (hookArrays s))))
                 (slen (InvokeOnError v)) (slen (InvokeOnError v)))
              (ContinuePast v) (ErrorCombiner v)
              (Slice (Some (fresh (dom (ifaceArrays s))))
                 (slen (Providers v)) (slen (Providers v)))]> (hooks s))
       (<[fresh (dom (mutexes s)) := false]> (mutexes s))
       (<[fresh (dom (hookArrays s)) := cascade s v]> (hookArrays s))
       (<[fresh (dom (ifaceArrays s)) := callbacks s v]> (ifaceArrays s)),
     Some (fresh (dom (hooks s)))).
Proof.
  intros [Hc Hp]. unfold Copy_locked.
  pose proof (clone_slice None _ _ Hc) as E1.
  pose proof (clone_slice None _ _ Hp) as E2.
  unfold make_slice in *. simpl in *. rewrite E1, E2. reflexivity.
Qed.

(** ** The invariant *)

Lemma creation_log_update s s' log p v v' :
  hooks s !! p = Some v ->
  hooks s' = <[p := v']> (hooks s) ->
  hookCounter s' = hookCounter s ->
  Id v' = Id v ->
  creation_log s log -> creation_log s' log.
Proof.
  intros Hp Hh Hc Hid (Hnd & Hlen & Hdom & Hids & Hctr).
  unfold creation_log. rewrite Hh, Hc.
  split; [exact Hnd|]. split.
  { rewrite Hlen. symmetry. apply map_size_insert_Some. eauto. }
  split.
  { intros q. rewrite Hdom. destruct (decide (p = q)) as [->|Hne].
    - rewrite lookup_insert_eq, Hp. split; eauto.
    - rewrite lookup_insert_ne by exact Hne. reflexivity. }
  split; [|exact Hctr].
  intros i q Hi. destruct (Hids i q Hi) as (w & Hw & Hwid).
  destruct (decide (p = q)) as [->|Hne].
  - exists v'. rewrite lookup_insert_eq. split; [reflexivity|]. congruence.
  - exists w. rewrite lookup_insert_ne by exact Hne. auto.
Qed.

Lemma creation_log_new s s' log q v' :
  hooks s !! q = None ->
  hooks s' = <[q := v']> (hooks s) ->
  hookCounter s' = next_id s ->
  Id v' = next_id s ->
  creation_log s log -> creation_log s' (log ++ [q]).
Proof.
  intros Hq Hh Hc Hid (Hnd & Hlen & Hdom & Hids & Hctr).
  assert (Hnext : next_id s = int32_wrap (Z.of_nat (S (length log)))).
  { unfold next_id. rewrite Hctr, int32_wrap_succ. f_equal. lia. }
  assert (Hnotin : q ∉ log).
  { intros Hin. apply Hdom in Hin. rewrite Hq in Hin.
    destruct Hin; discriminate. }
  unfold creation_log. rewrite Hh, Hc, length_app. simpl.
  split.
  { apply NoDup_app. split; [exact Hnd|]. split; [|apply NoDup_singleton].
    intros x Hx Hx'. apply list_elem_of_singleton in Hx'. subst. auto. }
  split.
  { rewrite map_size_insert_None by exact Hq. lia. }
  split.
  { intros p. rewrite elem_of_app, list_elem_of_singleton, Hdom.
    destruct (decide (q = p)) as [->|Hne].
    - rewrite lookup_insert_eq. split; eauto.
    - rewrite lookup_insert_ne by exact Hne. split; [|auto].
      intros [H|H]; [exact H | congruence]. }
  split.
  { intros i p Hi. destruct (decide (i < length log)) as [Hlt|Hge].
    - rewrite lookup_app_l in Hi by exact Hlt.
      destruct (Hids i p Hi) as (w & Hw & Hwid).
      exists w. split; [|exact Hwid].
      rewrite lookup_insert_ne; [exact Hw|]. congruence.
    - rewrite lookup_app_r in Hi by lia.
      destruct (i - length log) as [|k] eqn:Hk; [|destruct k; discriminate].
      simpl in Hi. injection Hi as <-.
      exists v'. rewrite lookup_insert_eq. split; [reflexivity|].
      rewrite Hid, Hnext. do 3 f_equal. lia. }
  rewrite Hnext. f_equal. lia.
Qed.

Lemma no_sharing_update s s' p v v' :
  no_sharing s ->
  (forall q w, hooks s !! q = Some w -> hook_wf s w) ->
  hooks s !! p = Some v ->
  hooks s' = <[p := v']> (hooks s) ->
  (forall a, sarr (InvokeOnError v') = Some a ->
     sarr (InvokeOnError v) = Some a \/ a ∉ dom (hookArrays s)) ->
  (forall a, sarr (Providers v') = Some a ->
     sarr (Providers v) = Some a \/ a ∉ dom (ifaceArrays s)) ->
  no_sharing s'.
Proof.
  intros Hns Hwf Hp Hh Hio Hpr q r vq vr Hne Hq Hr.
  rewrite Hh in Hq, Hr.
  destruct (decide (p = q)) as [<-|Hpq];
    [rewrite lookup_insert_eq in Hq; injection Hq as <-
    |rewrite lookup_insert_ne in Hq by exact Hpq];
    (destruct (decide (p = r)) as [<-|Hpr'];
     [rewrite lookup_insert_eq in Hr; injection Hr as <-
     |rewrite lookup_insert_ne in Hr by exact Hpr']);
    try congruence.
  - destruct (Hns p r v vr Hne Hp Hr) as [H1 H2].
    destruct (Hwf _ _ Hr) as [W1 W2].
    split; intros a Ha.
    + destruct (Hio a Ha) as [Hold|Hnew]; [auto|].
      intros Hr'. apply Hnew. eapply slice_wf_dom; eassumption.
    + destruct (Hpr a Ha) as [Hold|Hnew]; [auto|].
      intros Hr'. apply Hnew. eapply slice_wf_dom; eassumption.
  - destruct (Hns p q v vq Hpq Hp Hq) as [H1 H2].
    destruct (Hwf _ _ Hq) as [W1 W2].
    split; intros a Ha Ha'.
    + destruct (Hio a Ha') as [Hold|Hnew]; [exact (H1 a Hold Ha)|].
      apply Hnew. eapply slice_wf_dom; eassumption.
    + destruct (Hpr a Ha') as [Hold|Hnew]; [exact (H2 a Hold Ha)|].
      apply Hnew. eapply slice_wf_dom; eassumption.
  - exact (Hns q r vq vr Hne Hq Hr).
Qed.

Lemma no_sharing_new s s' p v' :
  no_sharing s ->
  (forall q w, hooks s !! q = Some w -> hook_wf s w) ->
  hooks s' = <[p := v']> (hooks s) ->
  (forall a, sarr (InvokeOnError v') = Some a -> a ∉ dom (hookArrays s)) ->
  (forall a, sarr (Providers v') = Some a -> a ∉ dom (ifaceArrays s)) ->
  no_sharing s'.
Proof.
  intros Hns Hwf Hh Hio Hpr q r vq vr Hne Hq Hr.
  rewrite Hh in Hq, Hr.
  destruct (decide (p = q)) as [<-|Hpq];
    [rewrite lookup_insert_eq in Hq; injection Hq as <-
    |rewrite lookup_insert_ne in Hq by exact Hpq];
    (destruct (decide (p = r)) as [<-|Hpr'];
     [rewrite lookup_insert_eq in Hr; injection Hr as <-
     |rewrite lookup_insert_ne in Hr by exact Hpr']);
    try congruence.
  - destruct (Hwf _ _ Hr) as [W1 W2].
    split; intros a Ha Hr'.
    + apply (Hio a Ha). eapply slice_wf_dom; eassumption.
    + apply (Hpr a Ha). eapply slice_wf_dom; eassumption.
  - destruct (Hwf _ _ Hq) as [W1 W2].
    split; intros a Ha Ha'.
    + apply (Hio a Ha'). eapply slice_wf_dom; eassumption.
    + apply (Hpr a Ha'). eapply slice_wf_dom; eassumption.
  - exact (Hns q r vq vr Hne Hq Hr).
Qed.

(** Replacing a hook by one with the same identifier and lock. *)
Lemma state_inv_update s s' p v v' :
  state_inv s ->
  hooks s !! p = Some v ->
  hooks s' = <[p := v']> (hooks s) ->
  mutexes s' = mutexes s ->
  hookCounter s' = hookCounter s ->
  Id v' = Id v -> lock v' = lock v ->
  (forall q w, hooks s' !! q = Some w -> hook_wf s' w) ->
  (forall a, sarr (InvokeOnError v') = Some a ->
     sarr (InvokeOnError v) = Some a \/ a ∉ dom (hookArrays s)) ->
  (forall a, sarr (Providers v') = Some a ->
     sarr (Providers v) = Some a \/ a ∉ dom (ifaceArrays s)) ->
  state_inv s'.
Proof.
  intros (Hall & Hns & log & Hlog) Hp Hh Hm Hc Hid Hlk Hwf Hio Hpr.
  split; [|split].
  - intros q w Hq. split; [|eauto]. split; [exact Hq|].
    rewrite Hh in Hq. rewrite Hm.
    destruct (decide (p = q)) as [->|Hne].
    + rewrite lookup_insert_eq in Hq. injection Hq as <-. rewrite Hlk.
      destruct (Hall _ _ Hp) as [(_ & Hr) _]. exact Hr.
    + rewrite lookup_insert_ne in Hq by exact Hne.
      destruct (Hall _ _ Hq) as [(_ & Hr) _]. exact Hr.
  - eapply (no_sharing_update s s' p v v'); try eassumption.
    intros q w Hq. apply (Hall _ _ Hq).
  - exists log. eapply creation_log_update; eassumption.
Qed.

(** Adding a hook that drew the next identifier and has a new mutex. *)
Lemma state_inv_new s s' v' :
  state_inv s ->
  hooks s' = <[fresh (dom (hooks s)) := v']> (hooks s) ->
  mutexes s' = <[fresh (dom (mutexes s)) := false]> (mutexes s) ->
  hookCounter s' = next_id s ->
  Id v' = next_id s -> lock v' = Some (fresh (dom (mutexes s))) ->
  (forall q w, hooks s' !! q = Some w -> hook_wf s' w) ->
  (forall a, sarr (InvokeOnError v') = Some a -> a ∉ dom (hookArrays s)) ->
  (forall a, sarr (Providers v') = Some a -> a ∉ dom (ifaceArrays s)) ->
  state_inv s'.
Proof.
  intros (Hall & Hns & log & Hlog) Hh Hm Hc Hid Hlk Hwf Hio Hpr.
  assert (Hq : hooks s !! fresh (dom (hooks s)) = None).
  { apply not_elem_of_dom, is_fresh. }
  split; [|split].
  - intros q w Hw. split; [|eauto]. split; [exact Hw|].
    rewrite Hh in Hw. rewrite Hm.
    destruct (decide (fresh (dom (hooks s)) = q)) as [<-|Hne].
    + rewrite lookup_insert_eq in Hw. injection Hw as <-.
      exists (fresh (dom (mutexes s))). split; [exact Hlk|].
      apply lookup_insert_eq.
    + rewrite lookup_insert_ne in Hw by exact Hne.
      destruct (Hall _ _ Hw) as [(_ & l & Hl & Hfree) _].
      exists l. split; [exact Hl|].
      rewrite lookup_insert_ne; [exact Hfree|].
      intros Heq. apply (is_fresh (dom (mutexes s))). rewrite Heq.
      apply elem_of_dom. eauto.
  - eapply (no_sharing_new s s' _ v'); try eassumption.
    intros q w Hw. apply (Hall _ _ Hw).
  - exists (log ++ [fresh (dom (hooks s))]).
    eapply creation_log_new; eassumption.
Qed.

Lemma state_inv_empty : state_inv (@empty_state errval provider).
Proof.
  split; [|split].
  - intros p v Hp. simpl in Hp. rewrite lookup_empty in Hp. discriminate.
  - intros p q vp vq _ Hp. simpl in Hp. rewrite lookup_empty in Hp.
    discriminate.
  - exists []. unfold creation_log. simpl.
    split; [apply NoDup_nil_2|]. split; [rewrite map_size_empty; reflexivity|].
    split.
    { intros p. rewrite lookup_empty. split.
      - intros H. inversion H.
      - intros [x H]. discriminate. }
    split; [|reflexivity].
    intros i p Hi. discriminate.
Qed.

Lemma NewHook_inv s name order :
  state_inv s -> state_inv (NewHook s name order).1.
Proof.
  intros Hinv. eapply state_inv_new; try exact Hinv; try reflexivity;
    try (simpl; intros a Ha; discriminate).
  simpl. intros q w Hw. destruct Hinv as [Hall _].
  destruct (decide (fresh (dom (hooks s)) = q)) as [<-|Hne].
  - rewrite lookup_insert_eq in Hw. injection Hw as <-.
    split; apply slice_wf_nil.
  - rewrite lookup_insert_ne in Hw by exact Hne.
    destruct (Hall _ _ Hw) as [_ Hwf]. exact Hwf.
Qed.

Lemma Copy_locked_inv s p v :
  state_inv s -> hooks s !! p = Some v -> state_inv (Copy_locked s v).1.
Proof.
  intros Hinv Hp. pose proof Hinv as [Hall _].
  destruct (Hall _ _ Hp) as [_ Hwf].
  rewrite (Copy_locked_eq _ _ Hwf). simpl.
  eapply state_inv_new; try exact Hinv; try reflexivity;
    try (simpl; intros a [= <-]; apply is_fresh).
  simpl. intros q w Hw.
  destruct (decide (fresh (dom (hooks s)) = q)) as [<-|Hne].
  - rewrite lookup_insert_eq in Hw. injection Hw as <-.
    destruct Hwf as [Hc Hpr].
    split; unfold slice_wf; simpl; eexists; rewrite lookup_insert_eq;
      (split; [reflexivity|]).
    + unfold cascade. rewrite (slice_elems_length _ _ Hc). lia.
    + unfold callbacks. rewrite (slice_elems_length _ _ Hpr). lia.
  - rewrite lookup_insert_ne in Hw by exact Hne.
    destruct (Hall _ _ Hw) as [_ [Hc Hpr]].
    split; simpl; (apply slice_wf_insert_fresh; [apply is_fresh | assumption]).
Qed.

Lemma OnError_locked_inv s p v e :
  state_inv s -> hooks s !! p = Some v ->
  state_inv (OnError_locked growslice s p v e).
Proof.
  intros Hinv Hp. pose proof Hinv as [Hall _].
  destruct e as [q|].
  - rewrite OnError_locked_Some.
    eapply (state_inv_update s _ p v); try exact Hinv; try exact Hp;
      try reflexivity.
    + simpl. intros r w Hw. destruct (decide (p = r)) as [->|Hne].
      * rewrite lookup_insert_eq in Hw. injection Hw as <-.
        destruct (Hall _ _ Hp) as [_ [Hc Hpr]].
        split; simpl; [apply append_slice_wf; exact Hc | exact Hpr].
      * rewrite lookup_insert_ne in Hw by exact Hne.
        destruct (Hall _ _ Hw) as [_ [Hc Hpr]].
        split; simpl; [apply append_slice_wf_other; exact Hc | exact Hpr].
    + simpl. intros a Ha. eapply append_slice_arr. exact Ha.
    + simpl. auto.
  - rewrite OnError_locked_nil.
    eapply (state_inv_update s _ p v); try exact Hinv; try exact Hp;
      try reflexivity.
    + simpl. intros r w Hw. destruct (decide (p = r)) as [->|Hne].
      * rewrite lookup_insert_eq in Hw. injection Hw as <-.
        destruct (Hall _ _ Hp) as [_ [Hc Hpr]].
        split; simpl; [apply slice_wf_nil | exact Hpr].
      * rewrite lookup_insert_ne in Hw by exact Hne.
        destruct (Hall _ _ Hw) as [_ Hwf]. exact Hwf.
    + simpl. intros a Ha. discriminate.
    + simpl. auto.
Qed.

Lemma set_field_inv s p v v' :
  state_inv s -> hooks s !! p = Some v ->
  Id v' = Id v -> lock v' = lock v ->
  InvokeOnError v' = InvokeOnError v -> Providers v' = Providers v ->
  state_inv (set_hooks <[p := v']> s).
Proof.
  intros Hinv Hp Hid Hlk Hio Hpr. pose proof Hinv as [Hall _].
  eapply (state_inv_update s _ p v); try exact Hinv; try exact Hp;
    try reflexivity; try assumption.
  - simpl. intros r w Hw. destruct (decide (p = r)) as [->|Hne].
    + rewrite lookup_insert_eq in Hw. injection Hw as <-.
      destruct (Hall _ _ Hp) as [_ [Hc Hpr']].
      split; simpl; [rewrite Hio | rewrite Hpr]; assumption.
    + rewrite lookup_insert_ne in Hw by exact Hne.
      destruct (Hall _ _ Hw) as [_ Hwf]. exact Hwf.
  - rewrite Hio. auto.
  - rewrite Hpr. auto.
Qed.

Lemma appendProvider_inv s p v x s' :
  state_inv s ->
  appendProvider growslice s (Some p) x = Done s' ->
  state_inv s'.
Proof.
  intros Hinv HC. pose proof Hinv as [Hall _].
  apply appendProvider_Done in HC as (p' & v' & [= <-] & Hp & ->).
  eapply (state_inv_update s _ p v'); try exact Hinv; try exact Hp;
    try reflexivity.
  - simpl. intros r w Hw. destruct (decide (p = r)) as [->|Hne].
    + rewrite lookup_insert_eq in Hw. injection Hw as <-.
      destruct (Hall _ _ Hp) as [_ [Hc Hpr]].
      split; simpl; [exact Hc | apply append_slice_wf; exact Hpr].
    + rewrite lookup_insert_ne in Hw by exact Hne.
      destruct (Hall _ _ Hw) as [_ [Hc Hpr]].
      split; simpl; [exact Hc | apply append_slice_wf_other; exact Hpr].
  - simpl. auto.
  - simpl. intros a Ha. eapply append_slice_arr. exact Ha.
Qed.

(** Every call preserves the invariant. *)
Lemma step_inv s s' :
  state_inv s -> step growslice s s' -> state_inv s'.
Proof.
  intros Hinv Hstep. destruct Hstep as [name order | h s' hc HC
    | h e s' r _ HC | h f s' r HC | h b s' r HC | h x s' HC].
  - apply NewHook_inv. exact Hinv.
  - apply Copy_Done in HC as (p & v & -> & (Hp & _) & HC).
    pose proof (Copy_locked_inv s p v Hinv Hp) as H.
    rewrite HC in H. exact H.
  - apply OnError_Done in HC as (p & v & -> & (Hp & _) & -> & _).
    apply OnError_locked_inv; assumption.
  - apply SetErrorCombiner_Done in HC as (p & v & -> & (Hp & _) & -> & _).
    apply (set_field_inv s p v); auto.
  - apply ContinuePastError_Done in HC as (p & v & -> & (Hp & _) & -> & _).
    apply (set_field_inv s p v); auto.
  - pose proof HC as HC'.
    apply appendProvider_Done in HC' as (p & v & -> & Hp & _).
    eapply appendProvider_inv; eassumption.
Qed.

Lemma rtc_step_inv s s' :
  state_inv s -> rtc (step growslice) s s' -> state_inv s'.
Proof.
  intros Hinv Hrtc. induction Hrtc as [|s s1 s2 Hstep _ IH]; [exact Hinv|].
  apply IH. eapply step_inv; eassumption.
Qed.

(** ** Package initialisation *)

Lemma NewHook_lookup_old s name order p v :
  hooks s !! p = Some v -> hooks (NewHook s name order).1 !! p = Some v.
Proof.
  intros Hp. simpl. rewrite lookup_insert_ne; [exact Hp|].
  intros Heq. apply (is_fresh (dom (hooks s))). rewrite Heq.
  apply elem_of_dom. eauto.
Qed.

Lemma NewHook_lookup_new s name order :
  exists p, (NewHook s name order).2 = Some p
    /\ hooks (NewHook s name order).1 !! p
       = Some (mkHook (next_id s) (Some (fresh (dom (mutexes s)))) name order
                 nil_slice false None nil_slice).
Proof. eexists. split; [reflexivity|]. simpl. apply lookup_insert_eq. Qed.

(** Package initialisation is a sequence of calls. *)
Lemma package_init_steps s0 g :
  package_init growslice = Done (s0, g) ->
  rtc (step growslice) empty_state s0.
Proof.
  unfold package_init. intros H.
  pose proof (NewHook_lookup_new empty_state "shutdown" ReverseOrder)
    as (p1 & Hp1 & Hv1).
  destruct (NewHook empty_state "shutdown" ReverseOrder) as [s1 sh] eqn:E1.
  simpl in Hp1, Hv1. subst sh.
  pose proof (NewHook_lookup_old s1 "stop" ReverseOrder _ _ Hv1) as Hv1'.
  destruct (NewHook s1 "stop" ReverseOrder) as [s2 st] eqn:E2.
  simpl in Hv1'.
  destruct (OnError growslice s2 st (Some p1)) as [[s3 st3]| |] eqn:E3;
    try discriminate.
  cbn [mbind result_bind] in H.
  destruct (ContinuePastError s3 st3 true) as [[s4 st4]| |] eqn:E4;
    try discriminate.
  cbn [mbind result_bind] in H.
  pose proof E4 as E4'.
  apply ContinuePastError_Done in E4' as (p2 & v2 & -> & _ & Hs4 & ->).
  assert (Hv2 : is_Some (hooks s4 !! p2)).
  { rewrite Hs4. simpl. rewrite lookup_insert_eq. eauto. }
  destruct Hv2 as [w2 Hw2].
  pose proof (NewHook_lookup_old s4 "start" ForwardOrder _ _ Hw2) as Hw2'.
  destruct (NewHook s4 "start" ForwardOrder) as [s5 sta] eqn:E5.
  simpl in Hw2'.
  destruct (OnError growslice s5 sta (Some p2)) as [[s6 st6]| |] eqn:E6;
    try discriminate.
  cbn [mbind result_bind mret result_ret] in H. injection H as <- _.
  eapply rtc_l.
  { pose proof (step_NewHook growslice (@empty_state errval provider)
                  "shutdown" ReverseOrder) as S1. rewrite E1 in S1. exact S1. }
  eapply rtc_l.
  { pose proof (step_NewHook growslice s1 "stop" ReverseOrder) as S2.
    rewrite E2 in S2. exact S2. }
  eapply rtc_l.
  { eapply step_OnError; [|exact E3]. intros q [= <-]. eauto. }
  eapply rtc_l.
  { eapply step_ContinuePastError. exact E4. }
  eapply rtc_l.
  { pose proof (step_NewHook growslice s4 "start" ForwardOrder) as S5.
    rewrite E5 in S5. exact S5. }
  eapply rtc_l.
  { eapply step_OnError; [|exact E6]. intros q [= <-]. eauto. }
  apply rtc_refl.
Qed.

(** Initialisation does not panic, and the three hooks are the first
    three objects of the heap. *)
Lemma package_init_Done :
  exists s0,
    package_init (errval := errval) (provider := provider) growslice
    = Done (s0, Globals (Some 0) (Some 1) (Some 2)).
Proof. eexists. vm_compute. reflexivity. Qed.

Lemma reachable_inv s : reachable growslice s -> state_inv s.
Proof.
  intros (s0 & g & Hinit & Hrtc).
  eapply rtc_step_inv; [|exact Hrtc].
  eapply rtc_step_inv; [apply state_inv_empty|].
  eapply package_init_steps. exact Hinit.
Qed.

Lemma reachable_step s s' :
  reachable growslice s -> step growslice s s' -> reachable growslice s'.
Proof.
  intros (s0 & g & Hinit & Hrtc) Hstep. exists s0, g.
  split; [exact Hinit|]. eapply rtc_r; eassumption.
Qed.

Lemma reachable_rtc s s' :
  reachable growslice s -> rtc (step growslice) s s' ->
  reachable growslice s'.
Proof.
  intros (s0 & g & Hinit & Hrtc) Hsteps. exists s0, g.
  split; [exact Hinit|]. etrans; eassumption.
Qed.

(** ** Identifiers *)

Lemma log_index s log p v :
  creation_log s log -> hooks s !! p = Some v ->
  exists i, i < size (hooks s) /\ log !! i = Some p
            /\ Id v = int32_wrap (Z.of_nat (S i)).
Proof.
  intros (Hnd & Hlen & Hdom & Hids & Hctr) Hp.
  assert (Hin : p ∈ log) by (apply Hdom; eauto).
  apply list_elem_of_lookup in Hin as [i Hi].
  exists i. split; [|split; [exact Hi|]].
  - rewrite <- Hlen. eapply lookup_lt_Some. exact Hi.
  - destruct (Hids _ _ Hi) as (w & Hw & Hwid). congruence.
Qed.

Lemma next_id_log s log :
  creation_log s log ->
  next_id s = int32_wrap (Z.of_nat (S (size (hooks s)))).
Proof.
  intros (Hnd & Hlen & Hdom & Hids & Hctr).
  unfold next_id. rewrite Hctr, int32_wrap_succ, Hlen. f_equal. lia.
Qed.

(** As long as no more than [2^32] hooks have been produced, no two of
    them have the same identifier. *)
Lemma ids_distinct s p q vp vq :
  state_inv s ->
  (Z.of_nat (size (hooks s)) <= 2 ^ 32)%Z ->
  hooks s !! p = Some vp -> hooks s !! q = Some vq ->
  Id vp = Id vq -> p = q.
Proof.
  intros (_ & _ & log & Hlog) Hsize Hp Hq Hid.
  destruct (log_index _ _ _ _ Hlog Hp) as (i & Hi & Hip & Hidp).
  destruct (log_index _ _ _ _ Hlog Hq) as (j & Hj & Hjq & Hidq).
  assert (Hij : Z.of_nat (S i) = Z.of_nat (S j)).
  { apply int32_wrap_inj; [lia | congruence]. }
  assert (i = j) by lia. subst j. congruence.
Qed.

(** As long as fewer than [2^32] hooks have been produced, the next
    identifier is not in use. *)
Lemma next_id_fresh s p v :
  state_inv s ->
  (Z.of_nat (size (hooks s)) < 2 ^ 32)%Z ->
  hooks s !! p = Some v -> Id v <> next_id s.
Proof.
  intros (_ & _ & log & Hlog) Hsize Hp Hid.
  destruct (log_index _ _ _ _ Hlog Hp) as (i & Hi & Hip & Hidp).
  rewrite (next_id_log _ _ Hlog), Hidp in Hid.
  apply int32_wrap_inj in Hid; lia.
Qed.

(** As long as the counter has not passed [2^31 - 1], it counts the hooks
    produced, and it is the largest identifier in use. *)
Lemma ids_bounded s p v :
  state_inv s ->
  (Z.of_nat (size (hooks s)) <= int32_max)%Z ->
  hooks s !! p = Some v ->
  hookCounter s = Z.of_nat (size (hooks s))
  /\ (1 <= Id v <= hookCounter s)%Z.
Proof.
  intros (_ & _ & log & Hlog) Hsize Hp.
  destruct (log_index _ _ _ _ Hlog Hp) as (i & Hi & Hip & Hidp).
  destruct Hlog as (Hnd & Hlen & Hdom & Hids & Hctr).
  unfold int32_max in Hsize.
  rewrite Hctr, Hidp, Hlen.
  rewrite !int32_wrap_small by (unfold int32_min, int32_max; lia).
  lia.
Qed.

Lemma next_id_greater s p v :
  state_inv s ->
  (Z.of_nat (size (hooks s)) < int32_max)%Z ->
  hooks s !! p = Some v ->
  (Id v < next_id s)%Z /\ next_id s = (hookCounter s + 1)%Z.
Proof.
  intros Hinv Hsize Hp.
  destruct (ids_bounded s p v Hinv ltac:(lia) Hp) as [Hc Hr].
  unfold next_id. unfold int32_max in Hsize.
  rewrite int32_wrap_small by (unfold int32_min, int32_max; lia).
  lia.
Qed.

(** ** Many hooks *)

Lemma NewHooks_S n s :
  NewHooks (S n) s = (NewHook (NewHooks n s) "h" ForwardOrder).1.
Proof. reflexivity. Qed.

Lemma NewHook_counter s name order :
  hookCounter (NewHook s name order).1 = int32_wrap (hookCounter s + 1).
Proof. reflexivity. Qed.

Lemma NewHooks_rtc n s : rtc (step growslice) s (NewHooks n s).
Proof.
  induction n as [|n IH]; [apply rtc_refl|].
  rewrite NewHooks_S. eapply rtc_r; [exact IH|]. apply step_NewHook.
Qed.

Lemma NewHooks_counter n s :
  hookCounter (NewHooks (S n) s)
  = int32_wrap (hookCounter s + Z.of_nat (S n)).
Proof.
  induction n as [|n IH].
  - apply NewHook_counter.
  - rewrite NewHooks_S, NewHook_counter, IH, int32_wrap_succ.
    f_equal. lia.
Qed.

Lemma NewHooks_lookup n s p v :
  hooks s !! p = Some v -> hooks (NewHooks n s) !! p = Some v.
Proof.
  intros Hp. induction n as [|n IH]; [exact Hp|].
  rewrite NewHooks_S. apply NewHook_lookup_old. exact IH.
Qed.

Lemma NewHooks_size n s :
  size (hooks (NewHooks n s)) = size (hooks s) + n.
Proof.
  induction n as [|n IH]; [simpl; lia|].
  rewrite NewHooks_S. simpl hooks.
  rewrite map_size_insert_None by (apply not_elem_of_dom, is_fresh).
  lia.
Qed.
End HookFacts.


(** * The claims about [hook.go] *)

Section HookClaims.
Context {errval provider : Type}.
Variable growslice : nat -> nat -> nat.
Implicit Types (s : state errval provider) (v : Hook errval).

Lemma init_state_reachable :
  reachable growslice (init_state growslice : state errval provider).
Proof.
  destruct (package_init_Done (errval := errval) (provider := provider)
              growslice) as [s0 H0].
  exists s0, (Globals (Some 0) (Some 1) (Some 2)).
  split; [exact H0|]. unfold init_state. rewrite H0. apply rtc_refl.
Qed.

Lemma reachable_ready s p v :
  reachable growslice s -> hooks s !! p = Some v ->
  hook_ready s p v /\ hook_wf s v.
Proof. intros Hr Hp. apply (reachable_inv growslice s Hr). exact Hp. Qed.

(** [OnError(nil)] on a ready hook. *)
Lemma OnError_nil_ready s p v :
  hook_ready s p v ->
  exists s',
    OnError growslice s (Some p) None = Done (s', Some p)
    /\ hooks s' !! p = Some (set_InvokeOnError nil_slice v)
    /\ cascade s' (set_InvokeOnError nil_slice v) = [].
Proof.
  intros Hr. eexists. split; [apply OnError_ready; exact Hr|].
  rewrite OnError_locked_nil. simpl. split; [apply lookup_insert_eq|].
  reflexivity.
Qed.

(** [OnError(e)] on a ready hook, [e] not nil. *)
Lemma OnError_Some_ready s p v e :
  hook_ready s p v -> hook_wf s v ->
  exists s' v',
    OnError growslice s (Some p) (Some e) = Done (s', Some p)
    /\ hooks s' !! p = Some v'
    /\ cascade s' v' = cascade s v ++ [Some e].
Proof.
  intros Hr [Hc _]. eexists _, _.
  split; [apply OnError_ready; exact Hr|].
  rewrite OnError_locked_Some. simpl. split; [apply lookup_insert_eq|].
  unfold cascade. simpl. apply append_slice_elems. exact Hc.
Qed.

(** [OnError] on [p] is not seen through a hook [q] whose cascade list
    lives in another array. *)
Lemma OnError_frame s p v q w e :
  hook_ready s p v -> hooks s !! q = Some w -> p <> q ->
  slice_wf (hookArrays s) (InvokeOnError w) ->
  (forall a, sarr (InvokeOnError v) = Some a ->
             sarr (InvokeOnError w) <> Some a) ->
  exists s',
    OnError growslice s (Some p) e = Done (s', Some p)
    /\ hooks s' !! q = Some w
    /\ cascade s' w = cascade s w
    /\ callbacks s' w = callbacks s w.
Proof.
  intros Hr Hq Hne Hwf Hsep. eexists.
  split; [apply OnError_ready; exact Hr|].
  destruct e as [t|].
  - rewrite OnError_locked_Some. simpl.
    split; [rewrite lookup_insert_ne by exact Hne; exact Hq|].
    split; [|reflexivity].
    unfold cascade. simpl. apply append_slice_frame; assumption.
  - rewrite OnError_locked_nil. simpl.
    split; [rewrite lookup_insert_ne by exact Hne; exact Hq|].
    split; reflexivity.
Qed.

(** The same for an entry appended to the callback list. *)
Lemma appendProvider_frame s p v q w x :
  hooks s !! p = Some v -> hooks s !! q = Some w -> p <> q ->
  slice_wf (ifaceArrays s) (Providers w) ->
  (forall a, sarr (Providers v) = Some a -> sarr (Providers w) <> Some a) ->
  exists s',
    appendProvider growslice s (Some p) x = Done s'
    /\ hooks s' !! q = Some w
    /\ callbacks s' w = callbacks s w
    /\ cascade s' w = cascade s w.
Proof.
  intros Hp Hq Hne Hwf Hsep. eexists.
  split; [apply appendProvider_Some; exact Hp|]. simpl.
  split; [rewrite lookup_insert_ne by exact Hne; exact Hq|].
  split; [|reflexivity].
  unfold callbacks. simpl. apply append_slice_frame; assumption.
Qed.

(** An entry appended to the callback list of a hook comes last. *)
Lemma appendProvider_elems s p v x :
  hooks s !! p = Some v -> hook_wf s v ->
  exists s' v',
    appendProvider growslice s (Some p) x = Done s'
    /\ hooks s' !! p = Some v'
    /\ callbacks s' v' = callbacks s v ++ [x].
Proof.
  intros Hp [_ Hwf]. eexists _, _.
  split; [apply appendProvider_Some; exact Hp|]. simpl.
  split; [apply lookup_insert_eq|].
  unfold callbacks. simpl. apply append_slice_elems. exact Hwf.
Qed.

(** What [Copy] returns for a ready, well-formed hook. *)
Lemma Copy_ready_wf s p v :
  hook_ready s p v -> hook_wf s v ->
  exists s' q hc,
    Copy s (Some p) = Done (s', Some q)
    /\ hooks s !! q = None
    /\ hooks s' !! q = Some hc
    /\ hooks s' !! p = Some v
    /\ hookCounter s' = next_id s
    /\ Id hc = next_id s
    /\ Name hc = Name v /\ Order hc = Order v
    /\ ContinuePast hc = ContinuePast v
    /\ ErrorCombiner hc = ErrorCombiner v
    /\ cascade s' hc = cascade s v /\ callbacks s' hc = callbacks s v
    /\ cascade s' v = cascade s v /\ callbacks s' v = callbacks s v
    /\ (exists m, lock hc = Some m /\ mutexes s !! m = None
                  /\ mutexes s' !! m = Some false)
    /\ (exists a, sarr (InvokeOnError hc) = Some a
                  /\ hookArrays s !! a = None)
    /\ (exists b, sarr (Providers hc) = Some b
                  /\ ifaceArrays s !! b = None).
Proof.
  intros Hr Hwf. pose proof Hr as (Hp & _). pose proof Hwf as [Hc Hpr].
  assert (Hq : hooks s !! fresh (dom (hooks s)) = None)
    by apply not_elem_of_dom, is_fresh.
  assert (Ha : hookArrays s !! fresh (dom (hookArrays s)) = None)
    by apply not_elem_of_dom, is_fresh.
  assert (Hb : ifaceArrays s !! fresh (dom (ifaceArrays s)) = None)
    by apply not_elem_of_dom, is_fresh.
  assert (Hm : mutexes s !! fresh (dom (mutexes s)) = None)
    by apply not_elem_of_dom, is_fresh.
  eexists _, _, _.
  split; [rewrite (Copy_ready _ _ _ Hr), (Copy_locked_eq _ _ Hwf); reflexivity|].
  simpl. split; [exact Hq|]. split; [apply lookup_insert_eq|].
  split; [rewrite lookup_insert_ne by congruence; exact Hp|].
  do 6 (split; [reflexivity|]).
  split.
  { unfold cascade at 1. unfold slice_elems. simpl.
    rewrite lookup_insert_eq. simpl. apply take_ge.
    unfold cascade. rewrite (slice_elems_length _ _ Hc). lia. }
  split.
  { unfold callbacks at 1. unfold slice_elems. simpl.
    rewrite lookup_insert_eq. simpl. apply take_ge.
    unfold callbacks. rewrite (slice_elems_length _ _ Hpr). lia. }
  split.
  { unfold cascade. simpl. apply slice_elems_insert_ne.
    intros Heq. apply (is_fresh (dom (hookArrays s))).
    eapply slice_wf_dom; eassumption. }
  split.
  { unfold callbacks. simpl. apply slice_elems_insert_ne.
    intros Heq. apply (is_fresh (dom (ifaceArrays s))).
    eapply slice_wf_dom; eassumption. }
  split; [eexists; split; [reflexivity|]; split;
          [exact Hm | apply lookup_insert_eq]|].
  split; eexists; (split; [reflexivity|]); assumption.
Qed.

(** A call leaves the identifier of every existing hook alone. *)
Lemma update_keeps_id (hs : gmap loc (Hook errval)) p0 v0 v0' p v :
  hs !! p0 = Some v0 -> Id v0' = Id v0 -> hs !! p = Some v ->
  exists v', <[p0 := v0']> hs !! p = Some v' /\ Id v' = Id v.
Proof.
  intros H0 Hid Hp. destruct (decide (p0 = p)) as [->|Hne].
  - exists v0'. rewrite lookup_insert_eq. split; [reflexivity|]. congruence.
  - exists v. rewrite lookup_insert_ne by exact Hne. auto.
Qed.

Lemma Copy_locked_lookup_old s v0 p v :
  hooks s !! p = Some v -> hooks (Copy_locked s v0).1 !! p = Some v.
Proof.
  intros Hp. unfold Copy_locked, make_slice. simpl.
  rewrite lookup_insert_ne; [exact Hp|].
  intros Heq. apply (is_fresh (dom (hooks s))). rewrite Heq.
  apply elem_of_dom. eauto.
Qed.

Lemma step_keeps_id s s' p v :
  step growslice s s' -> hooks s !! p = Some v ->
  exists v', hooks s' !! p = Some v' /\ Id v' = Id v.
Proof.
  intros Hstep Hp. destruct Hstep as [name order | h s' hc HC
    | h e s' r _ HC | h f s' r HC | h b s' r HC | h x s' HC].
  - exists v. split; [apply NewHook_lookup_old; exact Hp | reflexivity].
  - apply Copy_Done in HC as (p0 & v0 & -> & _ & HC).
    exists v. split; [|reflexivity].
    pose proof (Copy_locked_lookup_old s v0 p v Hp) as H.
    rewrite HC in H. exact H.
  - apply (OnError_Done growslice) in HC
      as (p0 & v0 & -> & (Hp0 & _) & -> & _).
    destruct e as [t|].
    + rewrite OnError_locked_Some. simpl.
      eapply update_keeps_id; [exact Hp0 | reflexivity | exact Hp].
    + rewrite OnError_locked_nil. simpl.
      eapply update_keeps_id; [exact Hp0 | reflexivity | exact Hp].
  - apply SetErrorCombiner_Done in HC as (p0 & v0 & -> & (Hp0 & _) & -> & _).
    simpl. eapply update_keeps_id; [exact Hp0 | reflexivity | exact Hp].
  - apply ContinuePastError_Done in HC as (p0 & v0 & -> & (Hp0 & _) & -> & _).
    simpl. eapply update_keeps_id; [exact Hp0 | reflexivity | exact Hp].
  - apply (appendProvider_Done growslice) in HC as (p0 & v0 & -> & Hp0 & ->).
    simpl. eapply update_keeps_id; [exact Hp0 | reflexivity | exact Hp].
Qed.

Lemma rtc_keeps_id s s' p v :
  rtc (step growslice) s s' -> hooks s !! p = Some v ->
  exists v', hooks s' !! p = Some v' /\ Id v' = Id v.
Proof.
  intros Hrtc. revert v. induction Hrtc as [s|s s1 s2 Hstep _ IH]; intros v Hp.
  - eauto.
  - destruct (step_keeps_id _ _ _ _ Hstep Hp) as (v1 & Hv1 & Hid1).
    destruct (IH _ Hv1) as (v2 & Hv2 & Hid2).
    exists v2. split; [exact Hv2 | congruence].
Qed.

(** The state in which [main] starts, whatever the runtime's growth
    policy. *)
Lemma init_state_counter :
  hookCounter (init_state growslice : state errval provider) = 3%Z.
Proof. vm_compute. reflexivity. Qed.

Lemma init_state_size :
  size (hooks (init_state growslice : state errval provider)) = 3.
Proof. vm_compute. reflexivity. Qed.

Lemma init_state_Shutdown :
  exists v, hooks (init_state growslice : state errval provider) !! 0 = Some v
            /\ Id v = 1%Z.
Proof. eexists. split; vm_compute; reflexivity. Qed.

(** The program that creates [n] hooks, one after the other, as soon as
    it starts. *)
Lemma NewHooks_from_init n :
  let s : state errval provider := NewHooks (S n) (init_state growslice) in
  reachable growslice s
  /\ hookCounter s = int32_wrap (3 + Z.of_nat (S n))
  /\ size (hooks s) = 3 + S n
  /\ exists v, hooks s !! 0 = Some v /\ Id v = 1%Z.
Proof.
  intros s. unfold s. split; [|split; [|split]].
  - eapply reachable_rtc; [apply init_state_reachable | apply NewHooks_rtc].
  - rewrite NewHooks_counter, init_state_counter. reflexivity.
  - rewrite NewHooks_size, init_state_size. reflexivity.
  - destruct init_state_Shutdown as (v & Hv & Hid).
    exists v. split; [apply NewHooks_lookup; exact Hv | exact Hid].
Qed.

(** ** C7 *)

(** C7.  In every state of a program and for every hook [h] in it,
    [h.OnError(nil)] returns [h] and leaves the cascade list of [h] empty,
    whatever it held before; for every [e] that is not nil, [h.OnError(e)]
    returns [h] and the cascade list of [h] is then the list it was before
    followed by [e]. *)
Theorem OnError_clears_or_appends s p v :
  reachable growslice s -> hooks s !! p = Some v ->
  (exists s' v',
      OnError growslice s (Some p) None = Done (s', Some p)
      /\ hooks s' !! p = Some v'
      /\ cascade s' v' = [])
  /\ (forall e, exists s' v',
        OnError growslice s (Some p) (Some e) = Done (s', Some p)
        /\ hooks s' !! p = Some v'
        /\ cascade s' v' = cascade s v ++ [Some e]).
Proof.
  intros Hreach Hp. destruct (reachable_ready s p v Hreach Hp) as [Hr Hwf].
  split.
  - destruct (OnError_nil_ready s p v Hr) as (s' & H1 & H2 & H3). eauto.
  - intros e. apply OnError_Some_ready; assumption.
Qed.

(** ** C10 *)

(** C10, amended.  In every state of a program and for every hook [h] in
    it, [h.Copy()] returns a hook with the [Name], [Order], [ContinuePast]
    and [ErrorCombiner] of [h] and with the same cascade entries and
    callback entries.  New are the hook object itself, its mutex and the
    two backing arrays, none of which was allocated before, and its
    identifier: it is the next value of the counter,
    [int32_wrap (hookCounter + 1)], which no hook carries as long as fewer
    than [2^32] hooks have been produced.  [h] itself is left as it
    was. *)
Theorem Copy_keeps_configuration s p v :
  reachable growslice s -> hooks s !! p = Some v ->
  exists s' q hc,
    Copy s (Some p) = Done (s', Some q)
    /\ hooks s' !! q = Some hc
    /\ Name hc = Name v /\ Order hc = Order v
    /\ ContinuePast hc = ContinuePast v
    /\ ErrorCombiner hc = ErrorCombiner v
    /\ cascade s' hc = cascade s v /\ callbacks s' hc = callbacks s v
    /\ hooks s !! q = None
    /\ Id hc = int32_wrap (hookCounter s + 1)
    /\ hookCounter s' = int32_wrap (hookCounter s + 1)
    /\ ((Z.of_nat (size (hooks s)) < 2 ^ 32)%Z ->
        forall r w, hooks s !! r = Some w -> Id w <> Id hc)
    /\ (exists m, lock hc = Some m /\ mutexes s !! m = None
                  /\ mutexes s' !! m = Some false)
    /\ (exists a, sarr (InvokeOnError hc) = Some a
                  /\ hookArrays s !! a = None)
    /\ (exists b, sarr (Providers hc) = Some b
                  /\ ifaceArrays s !! b = None)
    /\ hooks s' !! p = Some v
    /\ cascade s' v = cascade s v /\ callbacks s' v = callbacks s v.
Proof.
  intros Hreach Hp. destruct (reachable_ready s p v Hreach Hp) as [Hr Hwf].
  destruct (Copy_ready_wf s p v Hr Hwf)
    as (s' & q & hc & H1 & H2 & H3 & H4 & H5 & H6 & H7 & H8 & H9 & H10
        & H11 & H12 & H13 & H14 & H15 & H16 & H17).
  exists s', q, hc. do 9 (split; [assumption|]).
  split; [exact H6|]. split; [exact H5|].
  split.
  { intros Hsize r w Hw. rewrite H6.
    apply (next_id_fresh s r w); [apply (reachable_inv growslice) | |];
      assumption. }
  repeat (split; [assumption|]). assumption.
Qed.

(** ** C3 *)

(** C3, amended.  In every state of a program and for every hook [h] in
    it, [h.Copy()] returns another hook, whose identifier is the next
    value of the counter, [int32_wrap (hookCounter + 1)], and whose cascade
    and callback entries are those of [h] (the same pointers, the same
    boxed values).  In every later state both hooks carry the identifiers
    they had, and a call of [OnError] on the copy, or an entry appended to
    its callback list, leaves the corresponding list of the original as it
    is, and the other way round.  The identifier of the copy differs from
    that of [h] as long as fewer than [2^32] hooks have been produced. *)
Theorem Copy_is_independent s p v :
  reachable growslice s -> hooks s !! p = Some v ->
  exists s1 q hc,
    Copy s (Some p) = Done (s1, Some q)
    /\ hooks s1 !! q = Some hc /\ hooks s1 !! p = Some v
    /\ q <> p
    /\ Id hc = int32_wrap (hookCounter s + 1)
    /\ ((Z.of_nat (size (hooks s)) < 2 ^ 32)%Z -> Id hc <> Id v)
    /\ cascade s1 hc = cascade s1 v /\ callbacks s1 hc = callbacks s1 v
    /\ forall s2 vp vq,
         rtc (step growslice) s1 s2 ->
         hooks s2 !! p = Some vp -> hooks s2 !! q = Some vq ->
         Id vp = Id v /\ Id vq = Id hc
         /\ (forall e, exists s3,
               OnError growslice s2 (Some q) e = Done (s3, Some q)
               /\ hooks s3 !! p = Some vp
               /\ cascade s3 vp = cascade s2 vp)
         /\ (forall e, exists s3,
               OnError growslice s2 (Some p) e = Done (s3, Some p)
               /\ hooks s3 !! q = Some vq
               /\ cascade s3 vq = cascade s2 vq)
         /\ (forall x, exists s3,
               appendProvider growslice s2 (Some q) x = Done s3
               /\ hooks s3 !! p = Some vp
               /\ callbacks s3 vp = callbacks s2 vp)
         /\ (forall x, exists s3,
               appendProvider growslice s2 (Some p) x = Done s3
               /\ hooks s3 !! q = Some vq
               /\ callbacks s3 vq = callbacks s2 vq).
Proof.
  intros Hreach Hp.
  destruct (reachable_ready s p v Hreach Hp) as [Hr Hwf].
  destruct (Copy_ready_wf s p v Hr Hwf)
    as (s1 & q & hc & HC & Hq & Hhc & Hv & _ & Hid & _ & _ & _ & _
        & Hc1 & Hc2 & Hc3 & Hc4 & _).
  assert (Hne : q <> p) by congruence.
  exists s1, q, hc. split; [exact HC|]. split; [exact Hhc|].
  split; [exact Hv|]. split; [exact Hne|]. split; [exact Hid|].
  split.
  { intros Hsize. rewrite Hid. intros Heq. symmetry in Heq. revert Heq.
    apply (next_id_fresh s p v); [apply (reachable_inv growslice) | |];
      assumption. }
  split; [congruence|]. split; [congruence|].
  intros s2 vp vq Hrtc Hvp Hvq.
  assert (Hreach2 : reachable growslice s2).
  { eapply reachable_rtc; [|exact Hrtc].
    eapply reachable_step; [exact Hreach|]. eapply step_Copy. exact HC. }
  pose proof (reachable_inv growslice s2 Hreach2) as (Hall & Hns & _).
  destruct (Hall _ _ Hvp) as [Hrp [Wp1 Wp2]].
  destruct (Hall _ _ Hvq) as [Hrq [Wq1 Wq2]].
  destruct (Hns q p vq vp Hne Hvq Hvp) as [Sqp1 Sqp2].
  destruct (Hns p q vp vq (not_eq_sym Hne) Hvp Hvq) as [Spq1 Spq2].
  destruct (rtc_keeps_id _ _ _ _ Hrtc Hhc) as (w1 & Hw1 & E1).
  destruct (rtc_keeps_id _ _ _ _ Hrtc Hv) as (w2 & Hw2 & E2).
  split; [congruence|]. split; [congruence|].
  split.
  { intros e.
    destruct (OnError_frame s2 q vq p vp e Hrq Hvp Hne Wp1 Sqp1)
      as (s3 & H1 & H2 & H3 & _). eauto. }
  split.
  { intros e.
    destruct (OnError_frame s2 p vp q vq e Hrp Hvq (not_eq_sym Hne) Wq1 Spq1)
      as (s3 & H1 & H2 & H3 & _). eauto. }
  split.
  { intros x.
    destruct (appendProvider_frame s2 q vq p vp x Hvq Hvp Hne Wp2 Sqp2)
      as (s3 & H1 & H2 & H3 & _). eauto. }
  intros x.
  destruct (appendProvider_frame s2 p vp q vq x Hvp Hvq (not_eq_sym Hne)
              Wq2 Spq2) as (s3 & H1 & H2 & H3 & _). eauto.
Qed.

(** ** C6 *)

(** C6, amended.  In every state, [NewHook(name, order)] returns a new
    hook with that name and order, whose cascade list and callback list
    are empty, whose continue-past-error flag is false and which has no
    error combiner; its identifier is the next value of the counter,
    [int32_wrap (hookCounter + 1)].  In a state of a program in which fewer
    than [2^32] hooks have been produced no hook carries that identifier,
    and no hook produced later does either as long as no more than [2^32]
    have been produced. *)
Theorem NewHook_fresh_and_blank s name order :
  exists q w,
    (NewHook s name order).2 = Some q
    /\ hooks (NewHook s name order).1 !! q = Some w
    /\ hooks s !! q = None
    /\ Name w = name /\ Order w = order
    /\ Id w = int32_wrap (hookCounter s + 1)
    /\ hookCounter (NewHook s name order).1 = int32_wrap (hookCounter s + 1)
    /\ InvokeOnError w = nil_slice /\ Providers w = nil_slice
    /\ cascade (NewHook s name order).1 w = []
    /\ callbacks (NewHook s name order).1 w = []
    /\ ContinuePast w = false
    /\ ErrorCombiner w = None
    /\ (reachable growslice s ->
        (Z.of_nat (size (hooks s)) < 2 ^ 32)%Z ->
        (forall p v, hooks s !! p = Some v -> Id v <> Id w)
        /\ (forall s2 p v,
              rtc (step growslice) (NewHook s name order).1 s2 ->
              (Z.of_nat (size (hooks s2)) <= 2 ^ 32)%Z ->
              hooks s2 !! p = Some v -> Id v = Id w -> p = q)).
Proof.
  destruct (NewHook_lookup_new s name order) as (q & Hq & Hw).
  exists q. eexists. split; [exact Hq|]. split; [exact Hw|].
  split.
  { simpl in Hq. injection Hq as <-. apply not_elem_of_dom, is_fresh. }
  do 10 (split; [reflexivity|]).
  intros Hreach Hsize. split.
  { intros p v Hp. simpl.
    apply (next_id_fresh s p v); [apply (reachable_inv growslice) | |];
      assumption. }
  intros s2 p v Hrtc Hsize2 Hp Hid.
  destruct (rtc_keeps_id _ _ _ _ Hrtc Hw) as (w2 & Hw2 & Hid2).
  assert (Hreach2 : reachable growslice s2).
  { eapply reachable_rtc; [|exact Hrtc].
    eapply reachable_step; [exact Hreach | apply step_NewHook]. }
  apply (ids_distinct s2 p q v w2);
    [apply (reachable_inv growslice) | | | |]; try assumption.
  congruence.
Qed.

(** ** C8 *)

(** C8, amended.  In every state of a program (the heap of the model
    holds every hook produced so far): no two hooks carry the same
    identifier as long as no more than [2^32] hooks have been produced; as
    long as fewer than [2^31 - 1] have been produced, the hook that
    [NewHook] or [Copy] produces next carries [hookCounter + 1], which is
    larger than every identifier in use; and, without any bound, no
    sequence of calls changes the identifier of a hook. *)
Theorem identifiers_unique_increasing_fixed s :
  reachable growslice s ->
  ((Z.of_nat (size (hooks s)) <= 2 ^ 32)%Z ->
   forall p q vp vq,
     hooks s !! p = Some vp -> hooks s !! q = Some vq ->
     Id vp = Id vq -> p = q)
  /\ ((Z.of_nat (size (hooks s)) < int32_max)%Z ->
      (forall name order, exists q w,
          (NewHook s name order).2 = Some q
          /\ hooks (NewHook s name order).1 !! q = Some w
          /\ Id w = (hookCounter s + 1)%Z
          /\ forall p v, hooks s !! p = Some v -> (Id v < Id w)%Z)
      /\ (forall p0 v0, hooks s !! p0 = Some v0 ->
            exists s' q w,
              Copy s (Some p0) = Done (s', Some q)
              /\ hooks s' !! q = Some w
              /\ Id w = (hookCounter s + 1)%Z
              /\ forall p v, hooks s !! p = Some v -> (Id v < Id w)%Z))
  /\ (forall s' p v,
        rtc (step growslice) s s' -> hooks s !! p = Some v ->
        exists v', hooks s' !! p = Some v' /\ Id v' = Id v).
Proof.
  intros Hreach.
  pose proof (reachable_inv growslice s Hreach) as Hinv.
  split.
  { intros Hsize p q vp vq Hp Hq Hid.
    apply (ids_distinct s p q vp vq); assumption. }
  split; [|intros s' p v Hrtc Hp; eapply rtc_keeps_id; eassumption].
  intros Hsize.
  assert (Hnext : forall p v, hooks s !! p = Some v ->
            (Id v < next_id s)%Z /\ next_id s = (hookCounter s + 1)%Z).
  { intros p v Hp. apply (next_id_greater s p v); assumption. }
  split.
  { intros name order.
    destruct (NewHook_lookup_new s name order) as (q & Hq & Hw).
    exists q. eexists. split; [exact Hq|]. split; [exact Hw|]. simpl.
    split.
    - destruct (map_choose_or_empty (hooks s)) as [(p & v & Hp)|Hempty].
      + apply (Hnext p v Hp).
      + destruct Hinv as (_ & _ & log & (_ & Hlen & _ & _ & Hctr)).
        rewrite Hempty, map_size_empty in Hlen.
        unfold next_id. rewrite Hctr, Hlen. reflexivity.
    - intros p v Hp. apply (Hnext p v Hp). }
  intros p0 v0 Hp0.
  destruct (reachable_ready s p0 v0 Hreach Hp0) as [Hr Hwf].
  destruct (Copy_ready_wf s p0 v0 Hr Hwf)
    as (s' & q & hc & HC & _ & Hhc & _ & _ & Hid & _).
  exists s', q, hc. split; [exact HC|]. split; [exact Hhc|].
  rewrite Hid. split.
  - apply (Hnext p0 v0 Hp0).
  - intros p v Hp. apply (Hnext p v Hp).
Qed.

(** ** C4 *)

(** C4, as the code has it.  Package initialisation returns, and leaves
    three hooks with the cascade lists, flags and combiners that the claim
    gives: [Start] cascades to [[Stop]], [Stop] to [[Shutdown]] and
    continues past errors, [Shutdown] cascades to nothing, [Start] and
    [Shutdown] do not continue past errors, and none has an error
    combiner.  But the three carry one and the same order, ["forward"]:
    [Stop] and [Shutdown], made with [ReverseOrder], carry the order of
    [Start], which is [ForwardOrder]. *)
Theorem predefined_hooks_carry_one_order :
  exists (s : state errval provider) shutdown stop start vshutdown vstop vstart,
    package_init growslice
    = Done (s, Globals (Some shutdown) (Some stop) (Some start))
    /\ hooks s !! shutdown = Some vshutdown
    /\ hooks s !! stop = Some vstop
    /\ hooks s !! start = Some vstart
    /\ Order vstart = "forward"
    /\ Order vstop = "forward"
    /\ Order vshutdown = "forward"
    /\ Order vstop = Order vstart /\ Order vshutdown = Order vstart
    /\ Order vstop = ForwardOrder /\ Order vshutdown = ForwardOrder
    /\ cascade s vstart = [Some stop]
    /\ cascade s vstop = [Some shutdown]
    /\ cascade s vshutdown = []
    /\ ContinuePast vstop = true
    /\ ContinuePast vstart = false /\ ContinuePast vshutdown = false
    /\ ErrorCombiner vstart = None /\ ErrorCombiner vstop = None
    /\ ErrorCombiner vshutdown = None
    /\ Name vstart = "start" /\ Name vstop = "stop"
    /\ Name vshutdown = "shutdown".
Proof.
  eexists _, _, _, _, _, _, _.
  split; [vm_compute; reflexivity|].
  repeat (split; [vm_compute; reflexivity|]).
  vm_compute; reflexivity.
Qed.

(** ** C2 *)

(** C2, as the code has it.  The constant [ReverseOrder] has the value of
    [ForwardOrder], so for every name the hook that
    [NewHook(name, ReverseOrder)] makes carries the same order as the one
    that [NewHook(name, ForwardOrder)] makes, namely ["forward"]. *)
Theorem ReverseOrder_is_ForwardOrder s name :
  exists q vr vf,
    (NewHook s name ReverseOrder).2 = Some q
    /\ hooks (NewHook s name ReverseOrder).1 !! q = Some vr
    /\ (NewHook s name ForwardOrder).2 = Some q
    /\ hooks (NewHook s name ForwardOrder).1 !! q = Some vf
    /\ Order vr = Order vf
    /\ Order vr = "forward"
    /\ ReverseOrder = ForwardOrder.
Proof.
  eexists _, _, _. split; [reflexivity|].
  split; [simpl; apply lookup_insert_eq|].
  split; [reflexivity|].
  split; [simpl; apply lookup_insert_eq|].
  repeat split.
Qed.
End HookClaims.


(** ** Instances: the state in which [main] starts, under a runtime that
    doubles capacities *)

Lemma OnError_clears_or_appends_witness :
  let s : state string nat := init_state growslice_double in
  let vstart := mkHook 3%Z (Some 2) "start" ForwardOrder (Slice (Some 1) 1 1)
                  false None nil_slice in
  reachable growslice_double s
  /\ hooks s !! 2 = Some vstart
  /\ (exists s' v',
        OnError growslice_double s (Some 2) None = Done (s', Some 2)
        /\ hooks s' !! 2 = Some v' /\ cascade s' v' = [])
  /\ (exists s' v',
        OnError growslice_double s (Some 2) (Some 0) = Done (s', Some 2)
        /\ hooks s' !! 2 = Some v'
        /\ cascade s' v' = [Some 1; Some 0]).
Proof.
  intros s vstart.
  assert (Hreach : reachable growslice_double s).
  { eexists _, _. split; [vm_compute; reflexivity | apply rtc_refl]. }
  assert (Hp : hooks s !! 2 = Some vstart) by (vm_compute; reflexivity).
  split; [exact Hreach|]. split; [exact Hp|].
  destruct (OnError_clears_or_appends growslice_double s 2 vstart Hreach Hp)
    as [Hnil Happ].
  split; [exact Hnil|]. exact (Happ 0).
Defined.

Lemma Copy_keeps_configuration_witness :
  let s : state string nat := init_state growslice_double in
  let vstop := mkHook 2%Z (Some 1) "stop" ReverseOrder (Slice (Some 0) 1 1)
                 true None nil_slice in
  reachable growslice_double s
  /\ hooks s !! 1 = Some vstop
  /\ (Z.of_nat (size (hooks s)) < 2 ^ 32)%Z
  /\ exists s' q hc,
       Copy s (Some 1) = Done (s', Some q)
       /\ hooks s' !! q = Some hc
       /\ Name hc = "stop" /\ Order hc = ReverseOrder
       /\ ContinuePast hc = true /\ ErrorCombiner hc = None
       /\ cascade s' hc = [Some 0]
       /\ Id hc = 4%Z
       /\ forall r w, hooks s !! r = Some w -> Id w <> Id hc.
Proof.
  intros s vstop.
  assert (Hreach : reachable growslice_double s).
  { eexists _, _. split; [vm_compute; reflexivity | apply rtc_refl]. }
  assert (Hp : hooks s !! 1 = Some vstop) by (vm_compute; reflexivity).
  assert (Hsize : (Z.of_nat (size (hooks s)) < 2 ^ 32)%Z)
    by (vm_compute; reflexivity).
  split; [exact Hreach|]. split; [exact Hp|]. split; [exact Hsize|].
  destruct (Copy_keeps_configuration growslice_double s 1 vstop Hreach Hp)
    as (s' & q & hc & H1 & H2 & H3 & H4 & H5 & H6 & H7 & _ & _ & H10 & _
        & H12 & _).
  exists s', q, hc. do 7 (split; [assumption|]).
  split; [exact H10|]. exact (H12 Hsize).
Defined.

Lemma Copy_is_independent_witness :
  let s : state string nat := init_state growslice_double in
  let vstop := mkHook 2%Z (Some 1) "stop" ReverseOrder (Slice (Some 0) 1 1)
                 true None nil_slice in
  reachable growslice_double s
  /\ hooks s !! 1 = Some vstop
  /\ (Z.of_nat (size (hooks s)) < 2 ^ 32)%Z
  /\ exists s1 q hc,
       Copy s (Some 1) = Done (s1, Some q)
       /\ hooks s1 !! q = Some hc /\ q <> 1 /\ Id hc <> 2%Z
       /\ (forall e, exists s3,
             OnError growslice_double s1 (Some q) e = Done (s3, Some q)
             /\ hooks s3 !! 1 = Some vstop
             /\ cascade s3 vstop = cascade s1 vstop)
       /\ (forall e, exists s3,
             OnError growslice_double s1 (Some 1) e = Done (s3, Some 1)
             /\ hooks s3 !! q = Some hc
             /\ cascade s3 hc = cascade s1 hc).
Proof.
  intros s vstop.
  assert (Hreach : reachable growslice_double s).
  { eexists _, _. split; [vm_compute; reflexivity | apply rtc_refl]. }
  assert (Hp : hooks s !! 1 = Some vstop) by (vm_compute; reflexivity).
  assert (Hsize : (Z.of_nat (size (hooks s)) < 2 ^ 32)%Z)
    by (vm_compute; reflexivity).
  split; [exact Hreach|]. split; [exact Hp|]. split; [exact Hsize|].
  destruct (Copy_is_independent growslice_double s 1 vstop Hreach Hp)
    as (s1 & q & hc & H1 & H2 & H3 & H4 & _ & H5 & _ & _ & Hlater).
  exists s1, q, hc. split; [exact H1|]. split; [exact H2|].
  split; [exact H4|]. split; [exact (H5 Hsize)|].
  destruct (Hlater s1 vstop hc (rtc_refl _ _) H3 H2) as (_ & _ & Ha & Hb & _).
  split; assumption.
Defined.

Lemma NewHook_fresh_and_blank_witness :
  let s : state string nat := init_state growslice_double in
  reachable growslice_double s
  /\ (Z.of_nat (size (hooks s)) < 2 ^ 32)%Z
  /\ exists q w,
       (NewHook s "migrate" ForwardOrder).2 = Some q
       /\ hooks (NewHook s "migrate" ForwardOrder).1 !! q = Some w
       /\ Name w = "migrate" /\ Order w = ForwardOrder
       /\ Id w = 4%Z
       /\ (forall p v, hooks s !! p = Some v -> Id v <> Id w)
       /\ cascade (NewHook s "migrate" ForwardOrder).1 w = []
       /\ callbacks (NewHook s "migrate" ForwardOrder).1 w = []
       /\ ContinuePast w = false /\ ErrorCombiner w = None.
Proof.
  intros s.
  assert (Hreach : reachable growslice_double s).
  { eexists _, _. split; [vm_compute; reflexivity | apply rtc_refl]. }
  assert (Hsize : (Z.of_nat (size (hooks s)) < 2 ^ 32)%Z)
    by (vm_compute; reflexivity).
  split; [exact Hreach|]. split; [exact Hsize|].
  destruct (NewHook_fresh_and_blank growslice_double s "migrate" ForwardOrder)
    as (q & w & H1 & H2 & _ & H4 & H5 & H6 & _ & _ & _ & H10 & H11 & H12
        & H13 & H14).
  destruct (H14 Hreach Hsize) as [Hfresh _].
  exists q, w. do 4 (split; [assumption|]).
  split; [exact H6|]. split; [exact Hfresh|].
  repeat (split; [assumption|]). exact H13.
Defined.

Lemma identifiers_unique_increasing_fixed_witness :
  let s : state string nat := init_state growslice_double in
  reachable growslice_double s
  /\ (Z.of_nat (size (hooks s)) <= 2 ^ 32)%Z
  /\ (Z.of_nat (size (hooks s)) < int32_max)%Z
  /\ (forall p q vp vq,
        hooks s !! p = Some vp -> hooks s !! q = Some vq ->
        Id vp = Id vq -> p = q)
  /\ (exists q w,
        (NewHook s "migrate" ForwardOrder).2 = Some q
        /\ hooks (NewHook s "migrate" ForwardOrder).1 !! q = Some w
        /\ Id w = 4%Z
        /\ forall p v, hooks s !! p = Some v -> (Id v < Id w)%Z).
Proof.
  intros s.
  assert (Hreach : reachable growslice_double s).
  { eexists _, _. split; [vm_compute; reflexivity | apply rtc_refl]. }
  assert (Hsize1 : (Z.of_nat (size (hooks s)) <= 2 ^ 32)%Z)
    by (vm_compute; discriminate).
  assert (Hsize2 : (Z.of_nat (size (hooks s)) < int32_max)%Z)
    by (vm_compute; reflexivity).
  split; [exact Hreach|]. split; [exact Hsize1|]. split; [exact Hsize2|].
  destruct (identifiers_unique_increasing_fixed growslice_double s Hreach)
    as (Huniq & Hnew & _).
  split; [exact (Huniq Hsize1)|].
  destruct (Hnew Hsize2) as [HN _].
  destruct (HN "migrate" ForwardOrder) as (q & w & H1 & H2 & H3 & H4).
  exists q, w. split; [exact H1|]. split; [exact H2|].
  split; [exact H3|]. exact H4.
Defined.

(** ** The counter wraps round *)

(** C3, as stated, fails.  A program that calls [NewHook] [2^32 - 3] times
    when it starts has produced [2^32] hooks and its counter is back at 0:
    [Shutdown.Copy()] then carries the identifier 1, that of [Shutdown]. *)
Lemma Copy_identifier_collides :
  let s : state string nat :=
    NewHooks (Z.to_nat (2 ^ 32 - 3)) (init_state growslice_double) in
  reachable growslice_double s
  /\ exists v s' q hc,
       hooks s !! 0 = Some v
       /\ Copy s (Some 0) = Done (s', Some q)
       /\ hooks s' !! q = Some hc
       /\ q <> 0
       /\ Id hc = Id v.
Proof.
  change (2 ^ 32 - 3)%Z with 4294967293%Z.
  replace (Z.to_nat 4294967293) with (S (Z.to_nat 4294967292)) by lia.
  destruct (NewHooks_from_init (errval := string) (provider := nat)
              growslice_double (Z.to_nat 4294967292))
    as (Hreach & Hctr & _ & v & Hv & Hid).
  cbv zeta. set (s := NewHooks _ _) in *. clearbody s.
  split; [exact Hreach|].
  destruct (reachable_ready growslice_double _ _ _ Hreach Hv) as [Hr Hwf].
  destruct (Copy_ready_wf _ _ _ Hr Hwf)
    as (s' & q & hc & HC & Hq & Hhc & _ & _ & Hidc & _).
  exists v, s', q, hc. split; [exact Hv|]. split; [exact HC|].
  split; [exact Hhc|].
  split.
  { intros Heq. subst q.
    assert (H : @None (Hook string) = Some v)
      by (etrans; [symmetry; exact Hq | exact Hv]).
    discriminate H. }
  rewrite Hidc, Hid. unfold next_id. rewrite Hctr, int32_wrap_succ.
  replace (Z.of_nat (S (Z.to_nat 4294967292))) with 4294967293%Z by lia.
  reflexivity.
Qed.

(** C6, as stated, fails.  In the same state [NewHook] returns a hook with
    the identifier 1, which [Shutdown] carries. *)
Lemma NewHook_identifier_collides :
  let s : state string nat :=
    NewHooks (Z.to_nat (2 ^ 32 - 3)) (init_state growslice_double) in
  reachable growslice_double s
  /\ exists v q w,
       hooks s !! 0 = Some v
       /\ (NewHook s "again" ForwardOrder).2 = Some q
       /\ hooks (NewHook s "again" ForwardOrder).1 !! q = Some w
       /\ q <> 0
       /\ Id w = Id v.
Proof.
  change (2 ^ 32 - 3)%Z with 4294967293%Z.
  replace (Z.to_nat 4294967293) with (S (Z.to_nat 4294967292)) by lia.
  destruct (NewHooks_from_init (errval := string) (provider := nat)
              growslice_double (Z.to_nat 4294967292))
    as (Hreach & Hctr & _ & v & Hv & Hid).
  cbv zeta. split; [exact Hreach|].
  set (s := NewHooks _ _) in *. clearbody s.
  destruct (NewHook_lookup_new s "again" ForwardOrder) as (q & Hq & Hw).
  exists v, q. eexists. split; [exact Hv|]. split; [exact Hq|].
  split; [exact Hw|]. split.
  { intros ->. simpl in Hq. injection Hq as Hq.
    apply (is_fresh (dom (hooks s))). rewrite Hq.
    apply elem_of_dom. eauto. }
  simpl. rewrite Hid. unfold next_id. rewrite Hctr, int32_wrap_succ.
  replace (Z.of_nat (S (Z.to_nat 4294967292))) with 4294967293%Z by lia.
  reflexivity.
Qed.

(** C8, as stated, fails.  A program that calls [NewHook] [2^31 - 4] times
    when it starts has its counter at the largest [int32]; the hook that
    [NewHook] returns next carries the smallest [int32], which is less than
    every identifier handed out before, that of [Shutdown] among them. *)
Lemma identifiers_stop_increasing :
  let s : state string nat :=
    NewHooks (Z.to_nat (2 ^ 31 - 4)) (init_state growslice_double) in
  reachable growslice_double s
  /\ hookCounter s = int32_max
  /\ exists v q w,
       hooks s !! 0 = Some v
       /\ (NewHook s "late" ForwardOrder).2 = Some q
       /\ hooks (NewHook s "late" ForwardOrder).1 !! q = Some w
       /\ Id w = int32_min
       /\ (Id w < Id v)%Z.
Proof.
  change (2 ^ 31 - 4)%Z with 2147483644%Z.
  replace (Z.to_nat 2147483644) with (S (Z.to_nat 2147483643)) by lia.
  destruct (NewHooks_from_init (errval := string) (provider := nat)
              growslice_double (Z.to_nat 2147483643))
    as (Hreach & Hctr & _ & v & Hv & Hid).
  assert (Hmax : int32_wrap (3 + Z.of_nat (S (Z.to_nat 2147483643))) = int32_max).
  { replace (Z.of_nat (S (Z.to_nat 2147483643))) with 2147483644%Z by lia.
    reflexivity. }
  cbv zeta. split; [exact Hreach|]. split; [rewrite <- Hmax; exact Hctr|].
  set (s := NewHooks _ _) in *. clearbody s.
  destruct (NewHook_lookup_new s "late" ForwardOrder) as (q & Hq & Hw).
  exists v, q. eexists. split; [exact Hv|]. split; [exact Hq|].
  split; [exact Hw|]. simpl. rewrite Hid. unfold next_id.
  rewrite Hctr, Hmax. split; [reflexivity|]. reflexivity.
Qed.

(** C10, as stated, fails.  In the state in which the counter is back at 0,
    [Stop.Copy()] returns a hook whose identifier is 1: it is not fresh,
    [Shutdown] carries it. *)
Lemma Copy_identifier_in_use :
  let s : state string nat :=
    NewHooks (Z.to_nat (2 ^ 32 - 3)) (init_state growslice_double) in
  reachable growslice_double s
  /\ exists v1 v0 s' q hc,
       hooks s !! 1 = Some v1
       /\ hooks s !! 0 = Some v0
       /\ Copy s (Some 1) = Done (s', Some q)
       /\ hooks s' !! q = Some hc
       /\ q <> 0
       /\ Id hc = Id v0.
Proof.
  change (2 ^ 32 - 3)%Z with 4294967293%Z.
  replace (Z.to_nat 4294967293) with (S (Z.to_nat 4294967292)) by lia.
  destruct (NewHooks_from_init (errval := string) (provider := nat)
              growslice_double (Z.to_nat 4294967292))
    as (Hreach & Hctr & _ & v0 & Hv0 & Hid).
  assert (Hv1 : exists v1, hooks (NewHooks (S (Z.to_nat 4294967292))
                                    (init_state growslice_double
                                       : state string nat)) !! 1 = Some v1).
  { eexists. apply NewHooks_lookup. vm_compute. reflexivity. }
  destruct Hv1 as [v1 Hv1].
  cbv zeta. set (s := NewHooks _ _) in *. clearbody s.
  split; [exact Hreach|].
  destruct (reachable_ready growslice_double _ _ _ Hreach Hv1) as [Hr Hwf].
  destruct (Copy_ready_wf _ _ _ Hr Hwf)
    as (s' & q & hc & HC & Hq & Hhc & _ & _ & Hidc & _).
  exists v1, v0, s', q, hc. split; [exact Hv1|]. split; [exact Hv0|].
  split; [exact HC|]. split; [exact Hhc|].
  split.
  { intros Heq. subst q.
    assert (H : @None (Hook string) = Some v0)
      by (etrans; [symmetry; exact Hq | exact Hv0]).
    discriminate H. }
  rewrite Hidc, Hid. unfold next_id. rewrite Hctr, int32_wrap_succ.
  replace (Z.of_nat (S (Z.to_nat 4294967292))) with 4294967293%Z by lia.
  reflexivity.
Qed.


(** * The dispatch engine *)

Section DispatchFacts.
Context {errval provider : Type}.
Variable invoke : provider -> App provider -> App provider * goerror errval.
Implicit Types (a : App provider) (cbs pre post : list provider)
  (comb : option (goerror errval -> goerror errval -> goerror errval)).

(** The two constants select the same direction. *)
Lemma iteration_order_same cbs :
  iteration_order ForwardOrder cbs = iteration_order ReverseOrder cbs.
Proof. reflexivity. Qed.

Lemma iteration_order_forward cbs :
  iteration_order ForwardOrder cbs = reverse cbs.
Proof. reflexivity. Qed.

(** Callbacks that succeed are all invoked and leave the accumulated
    error alone. *)
Lemma runCallbacks_app_clean c comb pre post a a1 failed acc :
  run_clean invoke pre a = Some a1 ->
  runCallbacks invoke c comb (pre ++ post) a failed acc
  = let '(a2, tr, f, e) := runCallbacks invoke c comb post a1 failed acc in
    (a2, pre ++ tr, f, e).
Proof.
  revert a. induction pre as [|cb pre IH]; intros a Hclean.
  - simpl in Hclean. injection Hclean as ->. simpl.
    destruct (runCallbacks invoke c comb post a1 failed acc)
      as [[[a2 tr] f] e]. reflexivity.
  - simpl in Hclean. simpl.
    destruct (invoke cb a) as [a0 [err|]]; [discriminate|].
    rewrite (IH a0 Hclean).
    destruct (runCallbacks invoke c comb post a1 failed acc)
      as [[[a2 tr] f] e]. reflexivity.
Qed.

Lemma runCallbacks_clean c comb cbs a a1 failed acc :
  run_clean invoke cbs a = Some a1 ->
  runCallbacks invoke c comb cbs a failed acc = (a1, cbs, failed, acc).
Proof.
  intros Hclean.
  pose proof (runCallbacks_app_clean c comb cbs [] a a1 failed acc Hclean) as H.
  simpl in H. rewrite !app_nil_r in H. exact H.
Qed.



(** Without a combiner a cascade leaves the accumulated error alone. *)
Lemma run_cascade_no_combiner dispatch
    (start : App provider * list (loc * provider) * goerror errval)
    targets a' tr' err :
  run_cascade dispatch None start targets = Some (a', tr', err) ->
  err = start.2.
Proof.
  unfold run_cascade. revert start.
  induction targets as [|[q w] targets IH]; intros [[a0 tr0] acc0] H.
  - simpl in H. injection H as _ _ <-. reflexivity.
  - simpl in H.
    destruct (dispatch a0 q w) as [[[a3 tr3] e3]|] eqn:Hd.
    + simpl in H. destruct e3 as [e3|]; simpl in H;
        apply IH in H; exact H.
    + simpl in H. exfalso. clear -H.
      induction targets as [|[q' w'] targets IH']; simpl in H;
        [discriminate | auto].
Qed.






End DispatchFacts.


Section DispatchClaims.
Context {errval provider : Type}.
Variable invoke : provider -> App provider -> App provider * goerror errval.
Implicit Types (a : App provider) (cbs pre post : list provider)
  (s : state errval provider) (v : Hook errval).

(** ** C1 *)

(** C1, as the code has it.  A hook made with [ForwardOrder] and one made
    with [ReverseOrder] carry the same order, so whatever a dispatch engine
    derives from the order of a hook ([direction]) is the same for both.
    In the model of [Do], which asks first whether the order is Reverse,
    both run their callbacks in reverse registration order: for the
    callbacks [cbs] registered for the hook, all succeeding, the trace of
    [Do] is [reverse cbs], also for the hook made with [ForwardOrder]. *)
Theorem Forward_and_Reverse_run_alike s name a q cbs a' :
  (NewHook s name ForwardOrder).2 = Some q ->
  registry a !! q = Some cbs ->
  run_clean invoke (reverse cbs) a = Some a' ->
  exists vf vr,
    hooks (NewHook s name ForwardOrder).1 !! q = Some vf
    /\ (NewHook s name ReverseOrder).2 = Some q
    /\ hooks (NewHook s name ReverseOrder).1 !! q = Some vr
    /\ (forall direction : hookOrder -> list provider -> list provider,
          direction (Order vf) cbs = direction (Order vr) cbs)
    /\ Do invoke 1 (NewHook s name ForwardOrder).1 a q vf
       = Some (a', (q,.) <$> reverse cbs, None)
    /\ Do invoke 1 (NewHook s name ReverseOrder).1 a q vr
       = Some (a', (q,.) <$> reverse cbs, None).
Proof.
  intros Hq Hreg Hclean. simpl in Hq. injection Hq as <-.
  eexists _, _.
  split; [simpl; apply lookup_insert_eq|].
  split; [reflexivity|].
  split; [simpl; apply lookup_insert_eq|].
  split; [reflexivity|].
  split; simpl; rewrite Hreg; simpl;
    change (iteration_order "forward" cbs) with (reverse cbs);
    rewrite (runCallbacks_clean invoke _ _ _ _ _ _ _ Hclean); reflexivity.
Qed.

(** ** C5 *)

End DispatchClaims.

(** ** Instances *)

Lemma Forward_and_Reverse_run_alike_witness :
  let s : state string nat := init_state growslice_double in
  let a : App nat := On (On (mkApp "app" ∅) 3 11) 3 12 in
  (NewHook s "migrate" ForwardOrder).2 = Some 3
  /\ registry a !! 3 = Some [11; 12]
  /\ run_clean all_succeed (reverse [11; 12]) a = Some a
  /\ exists vf,
       hooks (NewHook s "migrate" ForwardOrder).1 !! 3 = Some vf
       /\ Do all_succeed 1 (NewHook s "migrate" ForwardOrder).1 a 3 vf
          = Some (a, [(3, 12); (3, 11)], None).
Proof.
  intros s a.
  assert (Hq : (NewHook s "migrate" ForwardOrder).2 = Some 3)
    by (vm_compute; reflexivity).
  assert (Hreg : registry a !! 3 = Some [11; 12])
    by (vm_compute; reflexivity).
  assert (Hclean : run_clean all_succeed (reverse [11; 12]) a = Some a)
    by reflexivity.
  split; [exact Hq|]. split; [exact Hreg|]. split; [exact Hclean|].
  destruct (Forward_and_Reverse_run_alike all_succeed s "migrate" a 3
              [11; 12] a Hq Hreg Hclean) as (vf & vr & H1 & _ & _ & _ & H5 & _).
  exists vf. split; [exact H1|]. exact H5.
Defined.




(** * Further properties of [hook.go] *)

Section MoreHookFacts.
Context {errval provider : Type}.
Variable growslice : nat -> nat -> nat.
Implicit Types (s : state errval provider) (v : Hook errval).

Lemma Lock_Blocked s m :
  Lock s m = Blocked <-> exists l, m = Some l /\ mutexes s !! l = Some true.
Proof.
  unfold Lock. split.
  - destruct m as [l|]; [|discriminate].
    destruct (mutexes s !! l) as [[]|] eqn:Hl; try discriminate. eauto.
  - intros (l & -> & ->). reflexivity.
Qed.

(** A hook on the heap is ready, or its mutex is held, or a method that
    locks panics on it. *)
Lemma lock_cases s p v :
  hooks s !! p = Some v ->
  hook_ready s p v \/ mutex_held s p v \/ Lock s (lock v) = Panic.
Proof.
  intros Hp. unfold hook_ready, mutex_held, Lock.
  destruct (lock v) as [l|]; [|auto].
  destruct (mutexes s !! l) as [[]|] eqn:Hl; eauto 10.
Qed.

Lemma ready_not_held s p v : hook_ready s p v -> mutex_held s p v -> False.
Proof.
  intros (_ & l & Hl & Hf) (_ & l' & Hl' & Hh). congruence.
Qed.

Lemma Copy_held s p v : mutex_held s p v -> Copy s (Some p) = Blocked.
Proof.
  intros (Hp & l & Hl & Hh). unfold Copy, deref. rewrite Hp. simpl.
  unfold Lock. rewrite Hl, Hh. reflexivity.
Qed.

Lemma OnError_held s p v e :
  mutex_held s p v -> OnError growslice s (Some p) e = Blocked.
Proof.
  intros (Hp & l & Hl & Hh). unfold OnError, deref. rewrite Hp. simpl.
  unfold Lock. rewrite Hl, Hh. reflexivity.
Qed.

Lemma SetErrorCombiner_held s p v f :
  mutex_held s p v -> SetErrorCombiner s (Some p) f = Blocked.
Proof.
  intros (Hp & l & Hl & Hh). unfold SetErrorCombiner, deref. rewrite Hp.
  simpl. unfold Lock. rewrite Hl, Hh. reflexivity.
Qed.

Lemma ContinuePastError_held s p v b :
  mutex_held s p v -> ContinuePastError s (Some p) b = Blocked.
Proof.
  intros (Hp & l & Hl & Hh). unfold ContinuePastError, deref. rewrite Hp.
  simpl. unfold Lock. rewrite Hl, Hh. reflexivity.
Qed.

Lemma Copy_Lock_Panic s p v :
  hooks s !! p = Some v -> Lock s (lock v) = Panic ->
  Copy s (Some p) = Panic.
Proof.
  intros Hp HL. unfold Copy, deref. rewrite Hp. simpl. rewrite HL.
  reflexivity.
Qed.

Lemma OnError_Lock_Panic s p v e :
  hooks s !! p = Some v -> Lock s (lock v) = Panic ->
  OnError growslice s (Some p) e = Panic.
Proof.
  intros Hp HL. unfold OnError, deref. rewrite Hp. simpl. rewrite HL.
  reflexivity.
Qed.

Lemma SetErrorCombiner_Lock_Panic s p v f :
  hooks s !! p = Some v -> Lock s (lock v) = Panic ->
  SetErrorCombiner s (Some p) f = Panic.
Proof.
  intros Hp HL. unfold SetErrorCombiner, deref. rewrite Hp. simpl.
  rewrite HL. reflexivity.
Qed.

Lemma ContinuePastError_Lock_Panic s p v b :
  hooks s !! p = Some v -> Lock s (lock v) = Panic ->
  ContinuePastError s (Some p) b = Panic.
Proof.
  intros Hp HL. unfold ContinuePastError, deref. rewrite Hp. simpl.
  rewrite HL. reflexivity.
Qed.

(** The receiver of a call that blocks is a hook whose mutex is held. *)
Lemma Copy_Blocked s h :
  Copy s h = Blocked -> exists p v, h = Some p /\ mutex_held s p v.
Proof.
  intros H. destruct h as [p|]; [|discriminate].
  destruct (hooks s !! p) as [v|] eqn:Hp;
    [|unfold Copy, deref in H; rewrite Hp in H; discriminate].
  destruct (lock_cases s p v Hp) as [Hr|[Hh|HP]].
  - rewrite (Copy_ready s p v Hr) in H. discriminate.
  - eauto.
  - rewrite (Copy_Lock_Panic s p v Hp HP) in H. discriminate.
Qed.

Lemma OnError_Blocked s h e :
  OnError growslice s h e = Blocked ->
  exists p v, h = Some p /\ mutex_held s p v.
Proof.
  intros H. destruct h as [p|]; [|discriminate].
  destruct (hooks s !! p) as [v|] eqn:Hp;
    [|unfold OnError, deref in H; rewrite Hp in H; discriminate].
  destruct (lock_cases s p v Hp) as [Hr|[Hh|HP]].
  - rewrite (OnError_ready growslice s p v e Hr) in H. discriminate.
  - eauto.
  - rewrite (OnError_Lock_Panic s p v e Hp HP) in H. discriminate.
Qed.

Lemma SetErrorCombiner_Blocked s h f :
  SetErrorCombiner s h f = Blocked ->
  exists p v, h = Some p /\ mutex_held s p v.
Proof.
  intros H. destruct h as [p|]; [|discriminate].
  destruct (hooks s !! p) as [v|] eqn:Hp;
    [|unfold SetErrorCombiner, deref in H; rewrite Hp in H; discriminate].
  destruct (lock_cases s p v Hp) as [Hr|[Hh|HP]].
  - rewrite (SetErrorCombiner_ready s p v f Hr) in H. discriminate.
  - eauto.
  - rewrite (SetErrorCombiner_Lock_Panic s p v f Hp HP) in H. discriminate.
Qed.

Lemma ContinuePastError_Blocked s h b :
  ContinuePastError s h b = Blocked ->
  exists p v, h = Some p /\ mutex_held s p v.
Proof.
  intros H. destruct h as [p|]; [|discriminate].
  destruct (hooks s !! p) as [v|] eqn:Hp;
    [|unfold ContinuePastError, deref in H; rewrite Hp in H; discriminate].
  destruct (lock_cases s p v Hp) as [Hr|[Hh|HP]].
  - rewrite (ContinuePastError_ready s p v b Hr) in H. discriminate.
  - eauto.
  - rewrite (ContinuePastError_Lock_Panic s p v b Hp HP) in H. discriminate.
Qed.

(** ** Outcomes of the methods that lock *)

(** X6.  [Copy], [OnError], [SetErrorCombiner] and [ContinuePastError]
    return exactly when the receiver points to a hook whose mutex exists
    and is free, and block exactly when it points to a hook whose mutex is
    held; in every other case (nil receiver, nil lock) they panic. *)
Theorem locking_methods_outcome s h e f b :
  ((exists r, Copy s h = Done r)
     <-> exists p v, h = Some p /\ hook_ready s p v)
  /\ ((exists r, OnError growslice s h e = Done r)
        <-> exists p v, h = Some p /\ hook_ready s p v)
  /\ ((exists r, SetErrorCombiner s h f = Done r)
        <-> exists p v, h = Some p /\ hook_ready s p v)
  /\ ((exists r, ContinuePastError s h b = Done r)
        <-> exists p v, h = Some p /\ hook_ready s p v)
  /\ (Copy s h = Blocked <-> exists p v, h = Some p /\ mutex_held s p v)
  /\ (OnError growslice s h e = Blocked
        <-> exists p v, h = Some p /\ mutex_held s p v)
  /\ (SetErrorCombiner s h f = Blocked
        <-> exists p v, h = Some p /\ mutex_held s p v)
  /\ (ContinuePastError s h b = Blocked
        <-> exists p v, h = Some p /\ mutex_held s p v).
Proof.
  repeat split.
  - intros [[s' r] H]. apply Copy_Done in H as (p & v & -> & Hr & _). eauto.
  - intros (p & v & -> & Hr). rewrite (Copy_ready s p v Hr). eauto.
  - intros [[s' r] H].
    apply OnError_Done in H as (p & v & -> & Hr & _). eauto.
  - intros (p & v & -> & Hr).
    rewrite (OnError_ready growslice s p v e Hr). eauto.
  - intros [[s' r] H].
    apply SetErrorCombiner_Done in H as (p & v & -> & Hr & _). eauto.
  - intros (p & v & -> & Hr).
    rewrite (SetErrorCombiner_ready s p v f Hr). eauto.
  - intros [[s' r] H].
    apply ContinuePastError_Done in H as (p & v & -> & Hr & _). eauto.
  - intros (p & v & -> & Hr).
    rewrite (ContinuePastError_ready s p v b Hr). eauto.
  - apply Copy_Blocked.
  - intros (p & v & -> & Hh). eapply Copy_held; exact Hh.
  - apply OnError_Blocked.
  - intros (p & v & -> & Hh). eapply OnError_held; exact Hh.
  - apply SetErrorCombiner_Blocked.
  - intros (p & v & -> & Hh). eapply SetErrorCombiner_held; exact Hh.
  - apply ContinuePastError_Blocked.
  - intros (p & v & -> & Hh). eapply ContinuePastError_held; exact Hh.
Qed.

(** X5.  In every state of a program and for every hook in it, each
    method returns: [Copy], [OnError], [SetErrorCombiner] and
    [ContinuePastError] neither panic nor wait for the lock, and [String]
    gives ["hook "] followed by the name. *)
Theorem methods_return s p v :
  reachable growslice s -> hooks s !! p = Some v ->
  (exists s' q, Copy s (Some p) = Done (s', Some q))
  /\ (forall e, exists s', OnError growslice s (Some p) e = Done (s', Some p))
  /\ (forall f, exists s', SetErrorCombiner s (Some p) f = Done (s', Some p))
  /\ (forall b, exists s', ContinuePastError s (Some p) b = Done (s', Some p))
  /\ String s (Some p) = Done ("hook " +:+ Name v).
Proof.
  intros Hreach Hp. destruct (reachable_ready growslice s p v Hreach Hp)
    as [Hr Hwf].
  split.
  { destruct (Copy_ready_wf s p v Hr Hwf) as (s' & q & hc & HC & _). eauto. }
  split; [intros e; rewrite (OnError_ready growslice s p v e Hr); eauto|].
  split; [intros f; rewrite (SetErrorCombiner_ready s p v f Hr); eauto|].
  split; [intros b; rewrite (ContinuePastError_ready s p v b Hr); eauto|].
  unfold String, deref. rewrite Hp. reflexivity.
Qed.

(** ** The setters *)

Lemma ready_after_update s p v v' :
  hook_ready s p v -> lock v' = lock v ->
  hook_ready (set_hooks <[p := v']> s) p v'.
Proof.
  intros (Hp & l & Hl & Hf) Hlk. split; [simpl; apply lookup_insert_eq|].
  exists l. split; [congruence | exact Hf].
Qed.

(** X1.  In every state of a program and for every hook [h] in it,
    [h.SetErrorCombiner(f)] returns [h]; afterwards the combiner of [h] is
    [f] (none, if [f] is nil), whatever it was before, and nothing else
    has changed: the other fields of [h], its cascade list and callback
    list, every other hook, the counter and the mutexes. *)
Theorem SetErrorCombiner_installs s p v f :
  reachable growslice s -> hooks s !! p = Some v ->
  exists s' v',
    SetErrorCombiner s (Some p) f = Done (s', Some p)
    /\ hooks s' !! p = Some v'
    /\ ErrorCombiner v' = f
    /\ Id v' = Id v /\ lock v' = lock v /\ Name v' = Name v
    /\ Order v' = Order v /\ ContinuePast v' = ContinuePast v
    /\ cascade s' v' = cascade s v /\ callbacks s' v' = callbacks s v
    /\ (forall q w, q <> p -> hooks s !! q = Some w ->
          hooks s' !! q = Some w
          /\ cascade s' w = cascade s w /\ callbacks s' w = callbacks s w)
    /\ hookCounter s' = hookCounter s /\ mutexes s' = mutexes s.
Proof.
  intros Hreach Hp. destruct (reachable_ready growslice s p v Hreach Hp)
    as [Hr _].
  eexists _, _. split; [apply SetErrorCombiner_ready; exact Hr|].
  simpl. split; [apply lookup_insert_eq|].
  do 8 (split; [reflexivity|]).
  split; [|split; reflexivity].
  intros q w Hne Hq. rewrite lookup_insert_ne by congruence.
  repeat split. exact Hq.
Qed.

(** X2.  In every state of a program and for every hook [h] in it,
    [h.ContinuePastError(b)] returns [h]; afterwards the flag of [h] is
    [b], and nothing else has changed. *)
Theorem ContinuePastError_sets s p v b :
  reachable growslice s -> hooks s !! p = Some v ->
  exists s' v',
    ContinuePastError s (Some p) b = Done (s', Some p)
    /\ hooks s' !! p = Some v'
    /\ ContinuePast v' = b
    /\ Id v' = Id v /\ lock v' = lock v /\ Name v' = Name v
    /\ Order v' = Order v /\ ErrorCombiner v' = ErrorCombiner v
    /\ cascade s' v' = cascade s v /\ callbacks s' v' = callbacks s v
    /\ (forall q w, q <> p -> hooks s !! q = Some w ->
          hooks s' !! q = Some w
          /\ cascade s' w = cascade s w /\ callbacks s' w = callbacks s w)
    /\ hookCounter s' = hookCounter s /\ mutexes s' = mutexes s.
Proof.
  intros Hreach Hp. destruct (reachable_ready growslice s p v Hreach Hp)
    as [Hr _].
  eexists _, _. split; [apply ContinuePastError_ready; exact Hr|].
  simpl. split; [apply lookup_insert_eq|].
  do 8 (split; [reflexivity|]).
  split; [|split; reflexivity].
  intros q w Hne Hq. rewrite lookup_insert_ne by congruence.
  repeat split. exact Hq.
Qed.

Lemma set_hooks_twice s p (v1 v2 : Hook errval) :
  set_hooks <[p := v2]> (set_hooks <[p := v1]> s) = set_hooks <[p := v2]> s.
Proof.
  unfold set_hooks. simpl. rewrite insert_insert_eq. reflexivity.
Qed.

(** X3.  A setter called twice in a row on a hook leaves what the second
    call alone leaves: the last value wins, and the first leaves no
    trace. *)
Theorem setters_overwrite s p v :
  reachable growslice s -> hooks s !! p = Some v ->
  (forall b1 b2,
      ('(s1, h1) ← ContinuePastError s (Some p) b1;
       ContinuePastError s1 h1 b2)
      = ContinuePastError s (Some p) b2)
  /\ (forall f1 f2,
        ('(s1, h1) ← SetErrorCombiner s (Some p) f1;
         SetErrorCombiner s1 h1 f2)
        = SetErrorCombiner s (Some p) f2).
Proof.
  intros Hreach Hp. destruct (reachable_ready growslice s p v Hreach Hp)
    as [Hr _].
  split.
  - intros b1 b2.
    rewrite (ContinuePastError_ready s p v b1 Hr),
      (ContinuePastError_ready s p v b2 Hr).
    cbn [mbind result_bind].
    rewrite (ContinuePastError_ready _ p (set_ContinuePast b1 v) b2)
      by (apply (ready_after_update s p v); [exact Hr | reflexivity]).
    rewrite set_hooks_twice. reflexivity.
  - intros f1 f2.
    rewrite (SetErrorCombiner_ready s p v f1 Hr),
      (SetErrorCombiner_ready s p v f2 Hr).
    cbn [mbind result_bind].
    rewrite (SetErrorCombiner_ready _ p (set_ErrorCombiner f1 v) f2)
      by (apply (ready_after_update s p v); [exact Hr | reflexivity]).
    rewrite set_hooks_twice. reflexivity.
Qed.


Lemma ready_after_OnError s p v e :
  hook_ready s p v ->
  exists v', hook_ready (OnError_locked growslice s p v e) p v'
             /\ hooks (OnError_locked growslice s p v e) !! p = Some v'
             /\ lock v' = lock v /\ Id v' = Id v /\ Name v' = Name v
             /\ Order v' = Order v /\ ContinuePast v' = ContinuePast v
             /\ ErrorCombiner v' = ErrorCombiner v
             /\ Providers v' = Providers v.
Proof.
  intros (Hp & l & Hl & Hf). destruct e as [t|].
  - rewrite OnError_locked_Some. eexists. split.
    + split; [simpl; apply lookup_insert_eq|]. exists l. simpl. auto.
    + simpl. split; [apply lookup_insert_eq|]. repeat split.
  - rewrite OnError_locked_nil. eexists. split.
    + split; [simpl; apply lookup_insert_eq|]. exists l. simpl. auto.
    + simpl. split; [apply lookup_insert_eq|]. repeat split.
Qed.

(** X4.  Calls of two different configuration methods on one hook
    commute: [OnError] followed by [ContinuePastError] leaves the state
    and the result that [ContinuePastError] followed by [OnError] leaves,
    and likewise [OnError] with [SetErrorCombiner] and [SetErrorCombiner]
    with [ContinuePastError].  Two calls of the same method are another
    matter: there the order counts (X3, X9). *)
Theorem configuration_commutes s p v e b f :
  reachable growslice s -> hooks s !! p = Some v ->
  ('(s1, h1) ← OnError growslice s (Some p) e; ContinuePastError s1 h1 b)
  = ('(s1, h1) ← ContinuePastError s (Some p) b; OnError growslice s1 h1 e)
  /\ ('(s1, h1) ← OnError growslice s (Some p) e; SetErrorCombiner s1 h1 f)
     = ('(s1, h1) ← SetErrorCombiner s (Some p) f; OnError growslice s1 h1 e)
  /\ ('(s1, h1) ← SetErrorCombiner s (Some p) f; ContinuePastError s1 h1 b)
     = ('(s1, h1) ← ContinuePastError s (Some p) b; SetErrorCombiner s1 h1 f).
Proof.
  intros Hreach Hp. destruct (reachable_ready growslice s p v Hreach Hp)
    as [Hr _].
  destruct (ready_after_OnError s p v e Hr) as (v1 & Hr1 & Hv1 & _).
  split; [|split].
  - rewrite (OnError_ready growslice s p v e Hr),
      (ContinuePastError_ready s p v b Hr).
    cbn [mbind result_bind].
    rewrite (ContinuePastError_ready _ p v1 b Hr1).
    rewrite (OnError_ready growslice _ p (set_ContinuePast b v) e)
      by (apply (ready_after_update s p v); [exact Hr | reflexivity]).
    do 2 f_equal. destruct e as [t|].
    + rewrite OnError_locked_Some in Hv1 |- *.
      rewrite OnError_locked_Some. simpl in Hv1.
      rewrite lookup_insert_eq in Hv1. injection Hv1 as <-.
      unfold set_hooks. simpl. rewrite !insert_insert_eq. reflexivity.
    + rewrite OnError_locked_nil in Hv1 |- *.
      rewrite OnError_locked_nil. simpl in Hv1.
      rewrite lookup_insert_eq in Hv1. injection Hv1 as <-.
      unfold set_hooks. simpl. rewrite !insert_insert_eq. reflexivity.
  - rewrite (OnError_ready growslice s p v e Hr),
      (SetErrorCombiner_ready s p v f Hr).
    cbn [mbind result_bind].
    rewrite (SetErrorCombiner_ready _ p v1 f Hr1).
    rewrite (OnError_ready growslice _ p (set_ErrorCombiner f v) e)
      by (apply (ready_after_update s p v); [exact Hr | reflexivity]).
    do 2 f_equal. destruct e as [t|].
    + rewrite OnError_locked_Some in Hv1 |- *.
      rewrite OnError_locked_Some. simpl in Hv1.
      rewrite lookup_insert_eq in Hv1. injection Hv1 as <-.
      unfold set_hooks. simpl. rewrite !insert_insert_eq. reflexivity.
    + rewrite OnError_locked_nil in Hv1 |- *.
      rewrite OnError_locked_nil. simpl in Hv1.
      rewrite lookup_insert_eq in Hv1. injection Hv1 as <-.
      unfold set_hooks. simpl. rewrite !insert_insert_eq. reflexivity.
  - rewrite (SetErrorCombiner_ready s p v f Hr),
      (ContinuePastError_ready s p v b Hr).
    cbn [mbind result_bind].
    rewrite (ContinuePastError_ready _ p (set_ErrorCombiner f v) b)
      by (apply (ready_after_update s p v); [exact Hr | reflexivity]).
    rewrite (SetErrorCombiner_ready _ p (set_ContinuePast b v) f)
      by (apply (ready_after_update s p v); [exact Hr | reflexivity]).
    rewrite !set_hooks_twice. reflexivity.
Qed.

(** ** Locks are released *)

Lemma Copy_locked_mutexes s v :
  mutexes (Copy_locked s v).1 = <[fresh (dom (mutexes s)) := false]> (mutexes s).
Proof. reflexivity. Qed.

(** X7.  A call that returns leaves every mutex as it found it (each
    method releases the lock it took); the only change to the mutexes is
    the new, free mutex that [NewHook] and [Copy] allocate. *)
Theorem calls_release_the_lock s s' :
  step growslice s s' ->
  (mutexes s' = mutexes s
   \/ mutexes s' = <[fresh (dom (mutexes s)) := false]> (mutexes s))
  /\ forall l b, mutexes s !! l = Some b -> mutexes s' !! l = Some b.
Proof.
  intros Hstep.
  assert (H : mutexes s' = mutexes s
              \/ mutexes s' = <[fresh (dom (mutexes s)) := false]> (mutexes s)).
  { destruct Hstep as [name order | h s' hc HC
      | h e s' r _ HC | h f s' r HC | h b s' r HC | h x s' HC].
    - right. reflexivity.
    - apply Copy_Done in HC as (p & v & -> & _ & HC).
      right. rewrite <- (Copy_locked_mutexes s v), HC. reflexivity.
    - apply (OnError_Done growslice) in HC as (p & v & -> & _ & -> & _).
      left. apply OnError_locked_mutexes_eq.
    - apply SetErrorCombiner_Done in HC as (p & v & -> & _ & -> & _).
      left. reflexivity.
    - apply ContinuePastError_Done in HC as (p & v & -> & _ & -> & _).
      left. reflexivity.
    - apply (appendProvider_Done growslice) in HC as (p & v & -> & _ & ->).
      left. reflexivity. }
  split; [exact H|].
  intros l b Hl. destruct H as [-> | ->]; [exact Hl|].
  rewrite lookup_insert_ne; [exact Hl|].
  intros Heq. apply (is_fresh (dom (mutexes s))). rewrite Heq.
  apply elem_of_dom. eauto.
Qed.

(** ** [OnError] *)

(** X8.  In every state of a program, [h.OnError(e)] changes the cascade
    list of [h] and nothing else: the other fields of [h] and its callback
    list stay, every other hook keeps its fields, its cascade list and its
    callback list (no hook shares a backing array with [h]), and the
    counter and the mutexes are as before. *)
Theorem OnError_changes_one_list s p v e :
  reachable growslice s -> hooks s !! p = Some v ->
  exists s' v',
    OnError growslice s (Some p) e = Done (s', Some p)
    /\ hooks s' !! p = Some v'
    /\ Id v' = Id v /\ lock v' = lock v /\ Name v' = Name v
    /\ Order v' = Order v /\ ContinuePast v' = ContinuePast v
    /\ ErrorCombiner v' = ErrorCombiner v
    /\ callbacks s' v' = callbacks s v
    /\ (forall q w, q <> p -> hooks s !! q = Some w ->
          hooks s' !! q = Some w
          /\ cascade s' w = cascade s w /\ callbacks s' w = callbacks s w)
    /\ hookCounter s' = hookCounter s /\ mutexes s' = mutexes s.
Proof.
  intros Hreach Hp.
  pose proof (reachable_inv growslice s Hreach) as (Hall & Hns & _).
  destruct (Hall _ _ Hp) as [Hr _].
  destruct (ready_after_OnError s p v e Hr)
    as (v' & _ & Hv' & Hlk & Hid & Hn & Ho & Hc & He & Hpr).
  exists (OnError_locked growslice s p v e), v'.
  split; [apply OnError_ready; exact Hr|]. split; [exact Hv'|].
  do 6 (split; [assumption|]).
  split.
  { unfold callbacks. rewrite Hpr. f_equal.
    destruct e as [t|];
      [rewrite OnError_locked_Some | rewrite OnError_locked_nil];
      reflexivity. }
  split.
  { intros q w Hne Hq. destruct (Hall _ _ Hq) as [_ [Wq _]].
    destruct (Hns p q v w (not_eq_sym Hne) Hp Hq) as [Hsep _].
    destruct (OnError_frame growslice s p v q w e Hr Hq (not_eq_sym Hne)
                Wq Hsep) as (s' & HO & H1 & H2 & H3).
    rewrite (OnError_ready growslice s p v e Hr) in HO.
    injection HO as <-. auto. }
  split.
  - destruct e as [t|];
      [rewrite OnError_locked_Some | rewrite OnError_locked_nil];
      reflexivity.
  - apply OnError_locked_mutexes_eq.
Qed.

Lemma OnError_locked_cascade s p v e v' :
  hook_wf s v ->
  hooks (OnError_locked growslice s p v e) !! p = Some v' ->
  cascade (OnError_locked growslice s p v e) v'
  = targets_after (cascade s v) [e].
Proof.
  intros [Hc _] Hv'. destruct e as [t|].
  - rewrite OnError_locked_Some in Hv' |- *. simpl in Hv'.
    rewrite lookup_insert_eq in Hv'. injection Hv' as <-.
    unfold cascade. simpl. apply append_slice_elems. exact Hc.
  - rewrite OnError_locked_nil in Hv' |- *. simpl in Hv'.
    rewrite lookup_insert_eq in Hv'. injection Hv' as <-. reflexivity.
Qed.

Lemma OnErrors_inv es : forall s p v,
  state_inv s -> hooks s !! p = Some v ->
  exists s' v',
    OnErrors growslice s (Some p) es = Done (s', Some p)
    /\ hooks s' !! p = Some v'
    /\ cascade s' v' = targets_after (cascade s v) es.
Proof.
  induction es as [|e es IH]; intros s p v Hinv Hp.
  - exists s, v. repeat split. exact Hp.
  - pose proof Hinv as (Hall & _). destruct (Hall _ _ Hp) as [Hr Hwf].
    destruct (ready_after_OnError s p v e Hr) as (v1 & _ & Hv1 & _).
    pose proof (OnError_locked_inv growslice s p v e Hinv Hp) as Hinv1.
    destruct (IH _ p v1 Hinv1 Hv1) as (s' & v' & HO & Hv' & Hcas).
    exists s', v'. simpl.
    rewrite (OnError_ready growslice s p v e Hr).
    cbn [mbind result_bind]. split; [exact HO|]. split; [exact Hv'|].
    rewrite Hcas, (OnError_locked_cascade s p v e v1 Hwf Hv1).
    reflexivity.
Qed.

(** X9.  A chain [h.OnError(e1).OnError(e2)...] returns [h], and leaves in
    the cascade list of [h] what the arguments say, read from left to
    right: a nil argument empties the list, any other is put at the end of
    it; a target given twice is in the list twice. *)
Theorem OnError_chain s p v es :
  reachable growslice s -> hooks s !! p = Some v ->
  exists s' v',
    OnErrors growslice s (Some p) es = Done (s', Some p)
    /\ hooks s' !! p = Some v'
    /\ cascade s' v' = targets_after (cascade s v) es.
Proof.
  intros Hreach Hp. apply OnErrors_inv; [|exact Hp].
  apply (reachable_inv growslice). exact Hreach.
Qed.

(** ** The counter *)

Lemma size_update (hs : gmap loc (Hook errval)) p v v' :
  hs !! p = Some v -> size (<[p := v']> hs) = size hs.
Proof. intros Hp. apply map_size_insert_Some. eauto. Qed.

Lemma size_new (hs : gmap loc (Hook errval)) v' :
  size (<[fresh (dom hs) := v']> hs) = S (size hs).
Proof. apply map_size_insert_None, not_elem_of_dom, is_fresh. Qed.

Lemma Copy_locked_hooks s v :
  exists hc,
    hooks (Copy_locked s v).1 = <[fresh (dom (hooks s)) := hc]> (hooks s)
    /\ hookCounter (Copy_locked s v).1 = next_id s.
Proof. eexists. split; reflexivity. Qed.

(** X10.  In every state of a program [hookCounter] is the number of
    hooks produced so far, wrapped to an [int32] (it is that number itself
    as long as it fits); [NewHook] and [Copy] take the next value and add
    one hook, and no other call changes the counter or the number of
    hooks. *)
Theorem hookCounter_counts_hooks s :
  reachable growslice s ->
  hookCounter s = int32_wrap (Z.of_nat (size (hooks s)))
  /\ ((Z.of_nat (size (hooks s)) <= int32_max)%Z ->
      hookCounter s = Z.of_nat (size (hooks s)))
  /\ (forall name order,
        hookCounter (NewHook s name order).1 = next_id s
        /\ size (hooks (NewHook s name order).1) = S (size (hooks s)))
  /\ (forall h s' hc, Copy s h = Done (s', hc) ->
        hookCounter s' = next_id s /\ size (hooks s') = S (size (hooks s)))
  /\ (forall h e s' r, OnError growslice s h e = Done (s', r) ->
        hookCounter s' = hookCounter s /\ size (hooks s') = size (hooks s))
  /\ (forall h f s' r, SetErrorCombiner s h f = Done (s', r) ->
        hookCounter s' = hookCounter s /\ size (hooks s') = size (hooks s))
  /\ (forall h b s' r, ContinuePastError s h b = Done (s', r) ->
        hookCounter s' = hookCounter s /\ size (hooks s') = size (hooks s)).
Proof.
  intros Hreach.
  pose proof (reachable_inv growslice s Hreach)
    as (_ & _ & log & _ & Hlen & _ & _ & Hctr).
  rewrite Hlen in Hctr.
  split; [exact Hctr|]. split.
  { intros Hfit. rewrite Hctr. apply int32_wrap_small.
    unfold int32_min, int32_max in *. lia. }
  split.
  { intros name order. split; [reflexivity|]. simpl. apply size_new. }
  split.
  { intros h s' hc HC. apply Copy_Done in HC as (p & v & -> & _ & HC).
    destruct (Copy_locked_hooks s v) as (w & Hh & Hc).
    rewrite HC in Hh, Hc. simpl in Hh, Hc.
    split; [exact Hc|]. rewrite Hh. apply size_new. }
  split.
  { intros h e s' r HC.
    apply (OnError_Done growslice) in HC
      as (p & v & -> & (Hp & _) & -> & _).
    destruct e as [t|];
      [rewrite OnError_locked_Some | rewrite OnError_locked_nil]; simpl;
      (split; [reflexivity | eapply size_update; exact Hp]). }
  split.
  - intros h f s' r HC.
    apply SetErrorCombiner_Done in HC as (p & v & -> & (Hp & _) & -> & _).
    simpl. split; [reflexivity | eapply size_update; exact Hp].
  - intros h b s' r HC.
    apply ContinuePastError_Done in HC as (p & v & -> & (Hp & _) & -> & _).
    simpl. split; [reflexivity | eapply size_update; exact Hp].
Qed.

(** ** What no call changes *)

Lemma update_keeps_fields (hs : gmap loc (Hook errval)) p0 v0 v0' p v :
  hs !! p0 = Some v0 ->
  Name v0' = Name v0 -> Order v0' = Order v0 -> lock v0' = lock v0 ->
  hs !! p = Some v ->
  exists v', <[p0 := v0']> hs !! p = Some v'
             /\ Name v' = Name v /\ Order v' = Order v /\ lock v' = lock v.
Proof.
  intros H0 Hn Ho Hl Hp. destruct (decide (p0 = p)) as [->|Hne].
  - exists v0'. rewrite lookup_insert_eq. split; [reflexivity|].
    assert (v0 = v) by congruence. subst. auto.
  - exists v. rewrite lookup_insert_ne by exact Hne. auto.
Qed.

Lemma step_keeps_fields s s' p v :
  step growslice s s' -> hooks s !! p = Some v ->
  exists v', hooks s' !! p = Some v'
             /\ Name v' = Name v /\ Order v' = Order v /\ lock v' = lock v.
Proof.
  intros Hstep Hp. destruct Hstep as [name order | h s' hc HC
    | h e s' r _ HC | h f s' r HC | h b s' r HC | h x s' HC].
  - exists v. split; [apply NewHook_lookup_old; exact Hp | auto].
  - apply Copy_Done in HC as (p0 & v0 & -> & _ & HC).
    exists v. split; [|auto].
    pose proof (Copy_locked_lookup_old s v0 p v Hp) as H.
    rewrite HC in H. exact H.
  - apply (OnError_Done growslice) in HC
      as (p0 & v0 & -> & (Hp0 & _) & -> & _).
    destruct e as [t|].
    + rewrite OnError_locked_Some. simpl.
      eapply update_keeps_fields; [exact Hp0 | reflexivity .. | exact Hp].
    + rewrite OnError_locked_nil. simpl.
      eapply update_keeps_fields; [exact Hp0 | reflexivity .. | exact Hp].
  - apply SetErrorCombiner_Done in HC as (p0 & v0 & -> & (Hp0 & _) & -> & _).
    simpl. eapply update_keeps_fields; [exact Hp0 | reflexivity .. | exact Hp].
  - apply ContinuePastError_Done in HC as (p0 & v0 & -> & (Hp0 & _) & -> & _).
    simpl. eapply update_keeps_fields; [exact Hp0 | reflexivity .. | exact Hp].
  - apply (appendProvider_Done growslice) in HC as (p0 & v0 & -> & Hp0 & ->).
    simpl. eapply update_keeps_fields; [exact Hp0 | reflexivity .. | exact Hp].
Qed.

(** X11.  No sequence of calls changes the name, the order or the lock
    of a hook, or removes the hook; so [h.String()] returns the same
    string, ["hook "] followed by the name given to [NewHook], for as long
    as the program runs. *)
Theorem name_order_lock_are_fixed s s' p v :
  rtc (step growslice) s s' -> hooks s !! p = Some v ->
  exists v',
    hooks s' !! p = Some v'
    /\ Name v' = Name v /\ Order v' = Order v /\ lock v' = lock v
    /\ String s' (Some p) = String s (Some p)
    /\ String s' (Some p) = Done ("hook " +:+ Name v).
Proof.
  intros Hrtc. revert v.
  induction Hrtc as [s|s s1 s2 Hstep _ IH]; intros v Hp.
  - exists v. unfold String, deref. rewrite Hp. repeat split.
  - destruct (step_keeps_fields _ _ _ _ Hstep Hp) as (v1 & Hv1 & Hn1 & Ho1 & Hl1).
    destruct (IH _ Hv1) as (v2 & Hv2 & Hn2 & Ho2 & Hl2 & _ & HS).
    exists v2. split; [exact Hv2|].
    split; [congruence|]. split; [congruence|]. split; [congruence|].
    rewrite HS, Hn1. unfold String, deref. rewrite Hp. repeat split.
Qed.

(** ** [NewHook] and [Copy] *)

(** X13.  In every state of a program [NewHook] and [Copy] add one hook
    and change none: every hook that existed keeps its fields, its cascade
    list and its callback list.  [Copy] does not clone the hooks of the
    cascade list (one hook is added, whatever the length of the list), and
    [NewHook] allocates no backing array. *)
Theorem constructors_change_no_hook s :
  reachable growslice s ->
  (forall name order,
      size (hooks (NewHook s name order).1) = S (size (hooks s))
      /\ hookArrays (NewHook s name order).1 = hookArrays s
      /\ ifaceArrays (NewHook s name order).1 = ifaceArrays s
      /\ forall r w, hooks s !! r = Some w ->
           hooks (NewHook s name order).1 !! r = Some w
           /\ cascade (NewHook s name order).1 w = cascade s w
           /\ callbacks (NewHook s name order).1 w = callbacks s w)
  /\ (forall p v, hooks s !! p = Some v ->
        exists s' q,
          Copy s (Some p) = Done (s', Some q)
          /\ size (hooks s') = S (size (hooks s))
          /\ forall r w, hooks s !! r = Some w ->
               hooks s' !! r = Some w
               /\ cascade s' w = cascade s w
               /\ callbacks s' w = callbacks s w).
Proof.
  intros Hreach.
  pose proof (reachable_inv growslice s Hreach) as (Hall & _).
  split.
  - intros name order. split; [simpl; apply size_new|].
    split; [reflexivity|]. split; [reflexivity|].
    intros r w Hr. split; [apply NewHook_lookup_old; exact Hr|].
    split; reflexivity.
  - intros p v Hp. destruct (Hall _ _ Hp) as [Hr Hwf].
    eexists _, _.
    split; [rewrite (Copy_ready _ _ _ Hr), (Copy_locked_eq _ _ Hwf);
            reflexivity|].
    simpl. split; [apply size_new|].
    intros r w Hw. destruct (Hall _ _ Hw) as [_ [W1 W2]].
    split.
    { rewrite lookup_insert_ne; [exact Hw|].
      intros Heq. apply (is_fresh (dom (hooks s))). rewrite Heq.
      apply elem_of_dom. eauto. }
    split.
    + unfold cascade. simpl. apply slice_elems_insert_ne.
      intros Heq. apply (is_fresh (dom (hookArrays s))).
      eapply slice_wf_dom; eassumption.
    + unfold callbacks. simpl. apply slice_elems_insert_ne.
      intros Heq. apply (is_fresh (dom (ifaceArrays s))).
      eapply slice_wf_dom; eassumption.
Qed.

(** ** Two more invariants *)

Lemma locks_distinct_update s s' p0 v0 v0' :
  hooks s !! p0 = Some v0 ->
  hooks s' = <[p0 := v0']> (hooks s) ->
  lock v0' = lock v0 ->
  locks_distinct s -> locks_distinct s'.
Proof.
  intros H0 Hh Hlk Hld p q vp vq l Hp Hq Hlp Hlq. rewrite Hh in Hp, Hq.
  assert (Hold : forall r w, <[p0 := v0']> (hooks s) !! r = Some w ->
            exists w0, hooks s !! r = Some w0 /\ lock w0 = lock w).
  { intros r w Hr. destruct (decide (p0 = r)) as [<-|Hne].
    - rewrite lookup_insert_eq in Hr. injection Hr as <-. eauto.
    - rewrite lookup_insert_ne in Hr by exact Hne. eauto. }
  destruct (Hold _ _ Hp) as (wp & Hwp & Elp).
  destruct (Hold _ _ Hq) as (wq & Hwq & Elq).
  apply (Hld p q wp wq l); congruence.
Qed.

Lemma locks_distinct_new s s' v' :
  (forall r w l, hooks s !! r = Some w -> lock w = Some l ->
                 is_Some (mutexes s !! l)) ->
  hooks s' = <[fresh (dom (hooks s)) := v']> (hooks s) ->
  lock v' = Some (fresh (dom (mutexes s))) ->
  locks_distinct s -> locks_distinct s'.
Proof.
  intros Hdom Hh Hlk Hld p q vp vq l Hp Hq Hlp Hlq. rewrite Hh in Hp, Hq.
  assert (Hnew : forall r w, hooks s !! r = Some w ->
            lock w <> Some (fresh (dom (mutexes s)))).
  { intros r w Hr Hl. apply (is_fresh (dom (mutexes s))).
    apply elem_of_dom. eapply Hdom; eassumption. }
  destruct (decide (fresh (dom (hooks s)) = p)) as [<-|Hnp];
    [rewrite lookup_insert_eq in Hp; injection Hp as <-
    |rewrite lookup_insert_ne in Hp by exact Hnp];
    (destruct (decide (fresh (dom (hooks s)) = q)) as [<-|Hnq];
     [rewrite lookup_insert_eq in Hq; injection Hq as <-
     |rewrite lookup_insert_ne in Hq by exact Hnq]).
  - reflexivity.
  - exfalso. apply (Hnew q vq Hq). congruence.
  - exfalso. apply (Hnew p vp Hp). congruence.
  - apply (Hld p q vp vq l); assumption.
Qed.

Lemma step_locks_distinct s s' :
  state_inv s -> locks_distinct s -> step growslice s s' ->
  locks_distinct s'.
Proof.
  intros (Hall & _) Hld Hstep.
  assert (Hdom : forall r w l, hooks s !! r = Some w -> lock w = Some l ->
            is_Some (mutexes s !! l)).
  { intros r w l Hr Hl. destruct (Hall _ _ Hr) as [(_ & l' & Hl' & Hf) _].
    assert (l' = l) by congruence. subst. eauto. }
  destruct Hstep as [name order | h s' hc HC
    | h e s' r _ HC | h f s' r HC | h b s' r HC | h x s' HC].
  - eapply (locks_distinct_new s); [exact Hdom | reflexivity .. | exact Hld].
  - apply Copy_Done in HC as (p0 & v0 & -> & (Hp0 & _) & HC).
    destruct (Hall _ _ Hp0) as [_ Hwf].
    rewrite (Copy_locked_eq _ _ Hwf) in HC. injection HC as <- _.
    eapply (locks_distinct_new s); [exact Hdom | reflexivity .. | exact Hld].
  - apply (OnError_Done growslice) in HC
      as (p0 & v0 & -> & (Hp0 & _) & -> & _).
    destruct e as [t|];
      [rewrite OnError_locked_Some | rewrite OnError_locked_nil];
      (eapply (locks_distinct_update s _ p0 v0);
       [exact Hp0 | reflexivity .. | exact Hld]).
  - apply SetErrorCombiner_Done in HC as (p0 & v0 & -> & (Hp0 & _) & -> & _).
    eapply (locks_distinct_update s _ p0 v0);
      [exact Hp0 | reflexivity .. | exact Hld].
  - apply ContinuePastError_Done in HC as (p0 & v0 & -> & (Hp0 & _) & -> & _).
    eapply (locks_distinct_update s _ p0 v0);
      [exact Hp0 | reflexivity .. | exact Hld].
  - apply (appendProvider_Done growslice) in HC as (p0 & v0 & -> & Hp0 & ->).
    eapply (locks_distinct_update s _ p0 v0);
      [exact Hp0 | reflexivity .. | exact Hld].
Qed.

Lemma targets_valid_mono s s' :
  targets_valid s ->
  (forall q, is_Some (hooks s !! q) -> is_Some (hooks s' !! q)) ->
  (forall p v' e, hooks s' !! p = Some v' -> e ∈ cascade s' v' ->
     (exists r v, hooks s !! r = Some v /\ e ∈ cascade s v)
     \/ (exists t, e = Some t /\ is_Some (hooks s !! t))) ->
  targets_valid s'.
Proof.
  intros Htv Hmono Hsrc p v' e Hp He.
  destruct (Hsrc p v' e Hp He) as [(r & v & Hr & Hin)|(t & -> & Ht)].
  - destruct (Htv r v e Hr Hin) as (q & -> & Hq). eauto.
  - eauto.
Qed.

(** A hook put in the place of [v0] with the same cascade slice, the
    backing arrays being as they were. *)
Lemma targets_valid_update s s' p0 v0 v0' :
  hooks s !! p0 = Some v0 ->
  hooks s' = <[p0 := v0']> (hooks s) ->
  hookArrays s' = hookArrays s ->
  InvokeOnError v0' = InvokeOnError v0 ->
  targets_valid s -> targets_valid s'.
Proof.
  intros H0 Hh Ha Hio Htv. apply (targets_valid_mono s s' Htv).
  - intros q [w Hq]. rewrite Hh. destruct (decide (p0 = q)) as [<-|Hne].
    + rewrite lookup_insert_eq. eauto.
    + rewrite lookup_insert_ne by exact Hne. eauto.
  - intros p v' e Hp He. left. rewrite Hh in Hp.
    unfold cascade in He. rewrite Ha in He.
    destruct (decide (p0 = p)) as [<-|Hne].
    + rewrite lookup_insert_eq in Hp. injection Hp as <-.
      rewrite Hio in He. eauto.
    + rewrite lookup_insert_ne in Hp by exact Hne. eauto.
Qed.

Lemma step_targets_valid s s' :
  state_inv s -> targets_valid s -> step growslice s s' ->
  targets_valid s'.
Proof.
  intros Hinv Htv Hstep. pose proof Hinv as (Hall & Hns & _).
  destruct Hstep as [name order | h s' hc HC
    | h e s' r Htarget HC | h f s' r HC | h b s' r HC | h x s' HC].
  - apply (targets_valid_mono s _ Htv).
    + intros q [w Hq]. exists w. apply NewHook_lookup_old. exact Hq.
    + intros p v' e Hp He. simpl in Hp.
      destruct (decide (fresh (dom (hooks s)) = p)) as [<-|Hne].
      * rewrite lookup_insert_eq in Hp. injection Hp as <-.
        unfold cascade in He. simpl in He. inversion He.
      * rewrite lookup_insert_ne in Hp by exact Hne. left. eauto.
  - apply Copy_Done in HC as (p0 & v0 & -> & (Hp0 & _) & HC).
    destruct (Hall _ _ Hp0) as [_ Hwf]. pose proof Hwf as [Wc _].
    rewrite (Copy_locked_eq _ _ Hwf) in HC. injection HC as <- _.
    apply (targets_valid_mono s _ Htv).
    + intros q [w Hq]. exists w. simpl.
      rewrite lookup_insert_ne; [exact Hq|].
      intros Heq. apply (is_fresh (dom (hooks s))). rewrite Heq.
      apply elem_of_dom. eauto.
    + intros p v' e Hp He. left. simpl in Hp.
      destruct (decide (fresh (dom (hooks s)) = p)) as [<-|Hne].
      * rewrite lookup_insert_eq in Hp. injection Hp as <-.
        exists p0, v0. split; [exact Hp0|].
        unfold cascade at 1 in He. unfold slice_elems in He. simpl in He.
        rewrite lookup_insert_eq in He. simpl in He.
        rewrite take_ge in He; [exact He|].
        unfold cascade. rewrite (slice_elems_length _ _ Wc). lia.
      * rewrite lookup_insert_ne in Hp by exact Hne.
        exists p, v'. split; [exact Hp|].
        destruct (Hall _ _ Hp) as [_ [Wp _]].
        unfold cascade in He |- *. simpl in He.
        rewrite slice_elems_insert_ne in He; [exact He|].
        intros Heq. apply (is_fresh (dom (hookArrays s))).
        eapply slice_wf_dom; eassumption.
  - apply (OnError_Done growslice) in HC
      as (p0 & v0 & -> & Hr0 & -> & _).
    pose proof Hr0 as (Hp0 & _). destruct (Hall _ _ Hp0) as [_ Hwf0].
    apply (targets_valid_mono s _ Htv).
    + intros q [w Hq].
      destruct (step_keeps_fields s (OnError_locked growslice s p0 v0 e) q w)
        as (w' & Hw' & _); [|exact Hq | eauto].
      eapply step_OnError; [exact Htarget|].
      apply OnError_ready. exact Hr0.
    + intros p v' e' Hp He. destruct (decide (p0 = p)) as [<-|Hne].
      * rewrite (OnError_locked_cascade s p0 v0 e v' Hwf0 Hp) in He.
        destruct e as [t|]; simpl in He.
        -- apply elem_of_app in He as [He|He].
           ++ left. eauto.
           ++ apply list_elem_of_singleton in He. right.
              exists t. split; [exact He|]. apply Htarget. reflexivity.
        -- inversion He.
      * assert (Hq : hooks s !! p = Some v'
                     /\ cascade (OnError_locked growslice s p0 v0 e) v'
                        = cascade s v').
        { destruct e as [t|];
            [rewrite OnError_locked_Some in Hp |- *
            |rewrite OnError_locked_nil in Hp |- *];
            simpl in Hp; rewrite lookup_insert_ne in Hp by exact Hne;
            (split; [exact Hp|]); [|reflexivity].
          destruct (Hall _ _ Hp) as [_ [Wp _]].
          destruct (Hns p0 p v0 v' Hne Hp0 Hp) as [Hsep _].
          unfold cascade. simpl. apply append_slice_frame; assumption. }
        destruct Hq as [Hq Hsame]. rewrite Hsame in He. left. eauto.
  - apply SetErrorCombiner_Done in HC as (p0 & v0 & -> & (Hp0 & _) & -> & _).
    eapply (targets_valid_update s _ p0 v0);
      [exact Hp0 | reflexivity .. | exact Htv].
  - apply ContinuePastError_Done in HC as (p0 & v0 & -> & (Hp0 & _) & -> & _).
    eapply (targets_valid_update s _ p0 v0);
      [exact Hp0 | reflexivity .. | exact Htv].
  - apply (appendProvider_Done growslice) in HC as (p0 & v0 & -> & Hp0 & ->).
    eapply (targets_valid_update s _ p0 v0);
      [exact Hp0 | reflexivity .. | exact Htv].
Qed.

Lemma rtc_more_inv s s' :
  state_inv s -> locks_distinct s -> targets_valid s ->
  rtc (step growslice) s s' ->
  locks_distinct s' /\ targets_valid s'.
Proof.
  intros Hinv Hld Htv Hrtc.
  induction Hrtc as [|s s1 s2 Hstep _ IH]; [auto|].
  apply IH.
  - eapply step_inv; eassumption.
  - eapply step_locks_distinct; eassumption.
  - eapply step_targets_valid; eassumption.
Qed.

Lemma reachable_more_inv s :
  reachable growslice s -> locks_distinct s /\ targets_valid s.
Proof.
  intros (s0 & g & Hinit & Hrtc).
  assert (H0 : rtc (step growslice) empty_state s)
    by (etrans; [eapply package_init_steps; exact Hinit | exact Hrtc]).
  apply (rtc_more_inv empty_state s); [apply state_inv_empty | | | exact H0].
  - intros p q vp vq l Hp. simpl in Hp. rewrite lookup_empty in Hp.
    discriminate.
  - intros p v e Hp. simpl in Hp. rewrite lookup_empty in Hp. discriminate.
Qed.

(** X12.  In every state of a program no two hooks share a mutex: each
    hook made by [NewHook] or [Copy] has a mutex of its own, so a method
    called on one hook never waits for a lock taken through another.  Two
    hooks with one lock are one hook, and two different hooks have two
    different locks. *)
Theorem every_hook_has_its_own_lock s p q vp vq :
  reachable growslice s ->
  hooks s !! p = Some vp -> hooks s !! q = Some vq ->
  (forall l, lock vp = Some l -> lock vq = Some l -> p = q)
  /\ (p <> q ->
      exists lp lq,
        lock vp = Some lp /\ lock vq = Some lq /\ lp <> lq
        /\ mutexes s !! lp = Some false /\ mutexes s !! lq = Some false).
Proof.
  intros Hreach Hp Hq. destruct (reachable_more_inv s Hreach) as [Hld _].
  split; [intros l; apply Hld; assumption|].
  intros Hne.
  destruct (reachable_ready growslice s p vp Hreach Hp)
    as [(_ & lp & Hlp & Hmp) _].
  destruct (reachable_ready growslice s q vq Hreach Hq)
    as [(_ & lq & Hlq & Hmq) _].
  exists lp, lq. split; [exact Hlp|]. split; [exact Hlq|].
  split; [|split; assumption].
  intros Heq. subst lq. apply Hne. exact (Hld p q vp vq lp Hp Hq Hlp Hlq).
Qed.

(** X14.  In every state of a program every entry of every cascade list
    is the address of a hook: [OnError] never stores nil (a nil argument
    empties the list instead), and [Copy] copies the entries as they
    are. *)
Theorem cascade_entries_are_hooks s p v e :
  reachable growslice s ->
  hooks s !! p = Some v -> e ∈ cascade s v ->
  exists q w, e = Some q /\ hooks s !! q = Some w.
Proof.
  intros Hreach Hp He. destruct (reachable_more_inv s Hreach) as [_ Htv].
  destruct (Htv p v e Hp He) as (q & -> & [w Hq]). eauto.
Qed.
(** ** Hooks that the package did not make *)

(** X15.  On a hook whose [lock] is nil, as in a [Hook{}] that a client
    writes itself instead of calling [NewHook], the four methods that lock
    panic, whatever else the hook holds; only [String], which takes no
    lock, returns. *)
Theorem nil_lock_panics s p v e f b :
  hooks s !! p = Some v -> lock v = None ->
  Copy s (Some p) = Panic
  /\ OnError growslice s (Some p) e = Panic
  /\ SetErrorCombiner s (Some p) f = Panic
  /\ ContinuePastError s (Some p) b = Panic
  /\ String s (Some p) = Done ("hook " +:+ Name v).
Proof.
  intros Hp Hl.
  assert (HP : Lock s (lock v) = Panic) by (rewrite Hl; reflexivity).
  split; [apply (Copy_Lock_Panic s p v Hp HP)|].
  split; [apply (OnError_Lock_Panic s p v e Hp HP)|].
  split; [apply (SetErrorCombiner_Lock_Panic s p v f Hp HP)|].
  split; [apply (ContinuePastError_Lock_Panic s p v b Hp HP)|].
  unfold String, deref. rewrite Hp. reflexivity.
Qed.
End MoreHookFacts.


(** ** Instances of the further properties *)

Lemma methods_return_witness :
  let s : state string nat := init_state growslice_double in
  let vstart := mkHook 3%Z (Some 2) "start" ForwardOrder (Slice (Some 1) 1 1)
                  false None nil_slice in
  reachable growslice_double s
  /\ hooks s !! 2 = Some vstart
  /\ (exists s' q, Copy s (Some 2) = Done (s', Some q))
  /\ String s (Some 2) = Done "hook start".
Proof.
  intros s vstart.
  assert (Hreach : reachable growslice_double s).
  { eexists _, _. split; [vm_compute; reflexivity | apply rtc_refl]. }
  assert (Hp : hooks s !! 2 = Some vstart) by (vm_compute; reflexivity).
  split; [exact Hreach|]. split; [exact Hp|].
  destruct (methods_return growslice_double s 2 vstart Hreach Hp)
    as (HC & _ & _ & _ & HS).
  split; [exact HC | exact HS].
Defined.

Lemma SetErrorCombiner_installs_witness :
  let s : state string nat := init_state growslice_double in
  let vstop := mkHook 2%Z (Some 1) "stop" ReverseOrder (Slice (Some 0) 1 1)
                 true None nil_slice in
  reachable growslice_double s
  /\ hooks s !! 1 = Some vstop
  /\ exists s' v',
       SetErrorCombiner s (Some 1) (Some join_errors) = Done (s', Some 1)
       /\ hooks s' !! 1 = Some v'
       /\ ErrorCombiner v' = Some join_errors
       /\ ContinuePast v' = true
       /\ cascade s' v' = [Some 0].
Proof.
  intros s vstop.
  assert (Hreach : reachable growslice_double s).
  { eexists _, _. split; [vm_compute; reflexivity | apply rtc_refl]. }
  assert (Hp : hooks s !! 1 = Some vstop) by (vm_compute; reflexivity).
  split; [exact Hreach|]. split; [exact Hp|].
  destruct (SetErrorCombiner_installs growslice_double s 1 vstop
              (Some join_errors) Hreach Hp)
    as (s' & v' & H1 & H2 & H3 & _ & _ & _ & _ & H8 & H9 & _).
  exists s', v'. repeat (split; [assumption|]). exact H9.
Defined.

Lemma ContinuePastError_sets_witness :
  let s : state string nat := init_state growslice_double in
  let vstart := mkHook 3%Z (Some 2) "start" ForwardOrder (Slice (Some 1) 1 1)
                  false None nil_slice in
  reachable growslice_double s
  /\ hooks s !! 2 = Some vstart
  /\ exists s' v',
       ContinuePastError s (Some 2) true = Done (s', Some 2)
       /\ hooks s' !! 2 = Some v'
       /\ ContinuePast v' = true
       /\ Name v' = "start"
       /\ cascade s' v' = [Some 1].
Proof.
  intros s vstart.
  assert (Hreach : reachable growslice_double s).
  { eexists _, _. split; [vm_compute; reflexivity | apply rtc_refl]. }
  assert (Hp : hooks s !! 2 = Some vstart) by (vm_compute; reflexivity).
  split; [exact Hreach|]. split; [exact Hp|].
  destruct (ContinuePastError_sets growslice_double s 2 vstart true Hreach Hp)
    as (s' & v' & H1 & H2 & H3 & _ & _ & H6 & _ & _ & H9 & _).
  exists s', v'. repeat (split; [assumption|]). exact H9.
Defined.

Lemma setters_overwrite_witness :
  let s : state string nat := init_state growslice_double in
  let vstart := mkHook 3%Z (Some 2) "start" ForwardOrder (Slice (Some 1) 1 1)
                  false None nil_slice in
  reachable growslice_double s
  /\ hooks s !! 2 = Some vstart
  /\ ('(s1, h1) ← ContinuePastError s (Some 2) true;
      ContinuePastError s1 h1 false)
     = ContinuePastError s (Some 2) false.
Proof.
  intros s vstart.
  assert (Hreach : reachable growslice_double s).
  { eexists _, _. split; [vm_compute; reflexivity | apply rtc_refl]. }
  assert (Hp : hooks s !! 2 = Some vstart) by (vm_compute; reflexivity).
  split; [exact Hreach|]. split; [exact Hp|].
  destruct (setters_overwrite growslice_double s 2 vstart Hreach Hp)
    as [H _].
  exact (H true false).
Defined.

Lemma configuration_commutes_witness :
  let s : state string nat := init_state growslice_double in
  let vshutdown := mkHook 1%Z (Some 0) "shutdown" ReverseOrder nil_slice
                     false None nil_slice in
  reachable growslice_double s
  /\ hooks s !! 0 = Some vshutdown
  /\ ('(s1, h1) ← OnError growslice_double s (Some 0) (Some 1);
      ContinuePastError s1 h1 true)
     = ('(s1, h1) ← ContinuePastError s (Some 0) true;
        OnError growslice_double s1 h1 (Some 1)).
Proof.
  intros s vshutdown.
  assert (Hreach : reachable growslice_double s).
  { eexists _, _. split; [vm_compute; reflexivity | apply rtc_refl]. }
  assert (Hp : hooks s !! 0 = Some vshutdown) by (vm_compute; reflexivity).
  split; [exact Hreach|]. split; [exact Hp|].
  destruct (configuration_commutes growslice_double s 0 vshutdown (Some 1)
              true None Hreach Hp) as [H _].
  exact H.
Defined.

Lemma calls_release_the_lock_witness :
  let s : state string nat := init_state growslice_double in
  let vstart := mkHook 3%Z (Some 2) "start" ForwardOrder (Slice (Some 1) 1 1)
                  false None nil_slice in
  let s' := match OnError growslice_double s (Some 2) (Some 0) with
            | Done (s', _) => s'
            | _ => s
            end in
  hooks s !! 2 = Some vstart
  /\ lock vstart = Some 2
  /\ OnError growslice_double s (Some 2) (Some 0) = Done (s', Some 2)
  /\ step growslice_double s s'
  /\ mutexes s !! 2 = Some false
  /\ mutexes s' !! 2 = Some false
  /\ forall l b, mutexes s !! l = Some b -> mutexes s' !! l = Some b.
Proof.
  intros s vstart s'.
  assert (Hp : hooks s !! 2 = Some vstart) by (vm_compute; reflexivity).
  split; [exact Hp|]. split; [reflexivity|].
  assert (HC : OnError growslice_double s (Some 2) (Some 0)
               = Done (s', Some 2)) by (vm_compute; reflexivity).
  split; [exact HC|].
  assert (Hstep : step growslice_double s s').
  { eapply (step_OnError _ _ (Some 2) (Some 0)).
    - intros q [= <-]. vm_compute. eauto.
    - exact HC. }
  split; [exact Hstep|].
  assert (Hl : mutexes s !! 2 = Some false) by (vm_compute; reflexivity).
  split; [exact Hl|].
  destruct (calls_release_the_lock growslice_double s s' Hstep) as [_ H].
  split; [exact (H 2 false Hl) | exact H].
Defined.

Lemma OnError_changes_one_list_witness :
  let s : state string nat := init_state growslice_double in
  let vstart := mkHook 3%Z (Some 2) "start" ForwardOrder (Slice (Some 1) 1 1)
                  false None nil_slice in
  reachable growslice_double s
  /\ hooks s !! 2 = Some vstart
  /\ exists s' v',
       OnError growslice_double s (Some 2) (Some 0) = Done (s', Some 2)
       /\ hooks s' !! 2 = Some v'
       /\ Name v' = "start"
       /\ forall q w, q <> 2 -> hooks s !! q = Some w ->
            hooks s' !! q = Some w /\ cascade s' w = cascade s w
            /\ callbacks s' w = callbacks s w.
Proof.
  intros s vstart.
  assert (Hreach : reachable growslice_double s).
  { eexists _, _. split; [vm_compute; reflexivity | apply rtc_refl]. }
  assert (Hp : hooks s !! 2 = Some vstart) by (vm_compute; reflexivity).
  split; [exact Hreach|]. split; [exact Hp|].
  destruct (OnError_changes_one_list growslice_double s 2 vstart (Some 0)
              Hreach Hp)
    as (s' & v' & H1 & H2 & _ & _ & H5 & _ & _ & _ & _ & H10 & _).
  exists s', v'. repeat (split; [assumption|]). exact H10.
Defined.

Lemma OnError_chain_witness :
  let s : state string nat := init_state growslice_double in
  let vstart := mkHook 3%Z (Some 2) "start" ForwardOrder (Slice (Some 1) 1 1)
                  false None nil_slice in
  reachable growslice_double s
  /\ hooks s !! 2 = Some vstart
  /\ exists s' v',
       OnErrors growslice_double s (Some 2) [Some 0; None; Some 1; Some 1]
       = Done (s', Some 2)
       /\ hooks s' !! 2 = Some v'
       /\ cascade s' v' = [Some 1; Some 1].
Proof.
  intros s vstart.
  assert (Hreach : reachable growslice_double s).
  { eexists _, _. split; [vm_compute; reflexivity | apply rtc_refl]. }
  assert (Hp : hooks s !! 2 = Some vstart) by (vm_compute; reflexivity).
  split; [exact Hreach|]. split; [exact Hp|].
  destruct (OnError_chain growslice_double s 2 vstart
              [Some 0; None; Some 1; Some 1] Hreach Hp)
    as (s' & v' & H1 & H2 & H3).
  exists s', v'. split; [exact H1|]. split; [exact H2|]. exact H3.
Defined.

Lemma hookCounter_counts_hooks_witness :
  let s : state string nat := init_state growslice_double in
  reachable growslice_double s
  /\ hookCounter s = int32_wrap (Z.of_nat (size (hooks s)))
  /\ hookCounter s = 3%Z.
Proof.
  intros s.
  assert (Hreach : reachable growslice_double s).
  { eexists _, _. split; [vm_compute; reflexivity | apply rtc_refl]. }
  split; [exact Hreach|].
  destruct (hookCounter_counts_hooks growslice_double s Hreach)
    as (H1 & H2 & _).
  split; [exact H1|]. apply H2. vm_compute. discriminate.
Defined.

Lemma name_order_lock_are_fixed_witness :
  let s : state string nat := init_state growslice_double in
  let vstop := mkHook 2%Z (Some 1) "stop" ReverseOrder (Slice (Some 0) 1 1)
                 true None nil_slice in
  rtc (step growslice_double) s (NewHook s "migrate" ForwardOrder).1
  /\ hooks s !! 1 = Some vstop
  /\ String (NewHook s "migrate" ForwardOrder).1 (Some 1) = Done "hook stop".
Proof.
  intros s vstop.
  assert (Hrtc : rtc (step growslice_double) s
                   (NewHook s "migrate" ForwardOrder).1)
    by (apply rtc_once, step_NewHook).
  assert (Hp : hooks s !! 1 = Some vstop) by (vm_compute; reflexivity).
  split; [exact Hrtc|]. split; [exact Hp|].
  destruct (name_order_lock_are_fixed growslice_double s _ 1 vstop Hrtc Hp)
    as (v' & _ & _ & _ & _ & _ & HS).
  exact HS.
Defined.

Lemma every_hook_has_its_own_lock_witness :
  let s : state string nat := init_state growslice_double in
  let vstop := mkHook 2%Z (Some 1) "stop" ReverseOrder (Slice (Some 0) 1 1)
                 true None nil_slice in
  let vstart := mkHook 3%Z (Some 2) "start" ForwardOrder (Slice (Some 1) 1 1)
                  false None nil_slice in
  reachable growslice_double s
  /\ hooks s !! 1 = Some vstop
  /\ hooks s !! 2 = Some vstart
  /\ 1 <> 2
  /\ exists lp lq,
       lock vstop = Some lp /\ lock vstart = Some lq /\ lp <> lq.
Proof.
  intros s vstop vstart.
  assert (Hreach : reachable growslice_double s).
  { eexists _, _. split; [vm_compute; reflexivity | apply rtc_refl]. }
  assert (Hp : hooks s !! 1 = Some vstop) by (vm_compute; reflexivity).
  assert (Hq : hooks s !! 2 = Some vstart) by (vm_compute; reflexivity).
  assert (Hne : 1 <> 2) by discriminate.
  split; [exact Hreach|]. split; [exact Hp|]. split; [exact Hq|].
  split; [exact Hne|].
  destruct (every_hook_has_its_own_lock growslice_double s 1 2 vstop vstart
              Hreach Hp Hq) as [_ H].
  destruct (H Hne) as (lp & lq & H1 & H2 & H3 & _).
  exists lp, lq. split; [exact H1|]. split; [exact H2|]. exact H3.
Defined.

Lemma constructors_change_no_hook_witness :
  let s : state string nat := init_state growslice_double in
  reachable growslice_double s
  /\ size (hooks (NewHook s "migrate" ForwardOrder).1) = 4
  /\ hookArrays (NewHook s "migrate" ForwardOrder).1 = hookArrays s.
Proof.
  intros s.
  assert (Hreach : reachable growslice_double s).
  { eexists _, _. split; [vm_compute; reflexivity | apply rtc_refl]. }
  split; [exact Hreach|].
  destruct (constructors_change_no_hook growslice_double s Hreach)
    as [HN _].
  destruct (HN "migrate" ForwardOrder) as (H1 & H2 & _).
  split; [exact H1 | exact H2].
Defined.

Lemma cascade_entries_are_hooks_witness :
  let s : state string nat := init_state growslice_double in
  let vstart := mkHook 3%Z (Some 2) "start" ForwardOrder (Slice (Some 1) 1 1)
                  false None nil_slice in
  reachable growslice_double s
  /\ hooks s !! 2 = Some vstart
  /\ Some 1 ∈ cascade s vstart
  /\ exists q w, Some 1 = Some q /\ hooks s !! q = Some w.
Proof.
  intros s vstart.
  assert (Hreach : reachable growslice_double s).
  { eexists _, _. split; [vm_compute; reflexivity | apply rtc_refl]. }
  assert (Hp : hooks s !! 2 = Some vstart) by (vm_compute; reflexivity).
  assert (He : Some 1 ∈ cascade s vstart).
  { replace (cascade s vstart) with [Some 1] by (vm_compute; reflexivity).
    apply list_elem_of_singleton. reflexivity. }
  split; [exact Hreach|]. split; [exact Hp|]. split; [exact He|].
  exact (cascade_entries_are_hooks growslice_double s 2 vstart (Some 1)
           Hreach Hp He).
Defined.

Lemma nil_lock_panics_witness :
  let s : state string nat := with_zero_Hook (init_state growslice_double) in
  hooks s !! 3 = Some zero_Hook
  /\ lock (zero_Hook (errval := string)) = None
  /\ OnError growslice_double s (Some 3) (Some 0) = Panic
  /\ String s (Some 3) = Done "hook ".
Proof.
  intros s.
  assert (Hp : hooks s !! 3 = Some zero_Hook) by (vm_compute; reflexivity).
  assert (Hl : lock (zero_Hook (errval := string)) = None) by reflexivity.
  split; [exact Hp|]. split; [exact Hl|].
  destruct (nil_lock_panics growslice_double s 3 zero_Hook (Some 0) None true
              Hp Hl) as (_ & H2 & _ & _ & H5).
  split; [exact H2 | exact H5].
Defined.
